(** * ReflexEngine: the memory-recall engine

    A shallow embedding of [recallWeaverService.ts] (the bounded Fibonacci
    decay and the STM/LTM recall pipeline) and of [srgService.ts] (the
    concept-association graph), with the properties the specification
    states about them.

    Conventions of the embedding.
    - A TypeScript [number] holding a turn counter, an array index or an
      edge weight is an integer of [Z]; a [number] holding a score is an
      exact rational of [Q] (scores are compared with [==], the equality of
      rationals).  Rounding of IEEE doubles is not modelled.
    - An array is a [list], [l.map(f)] is [fmap f l] (also written
      [f <$> l]); [T | undefined] is [option T].
    - A JavaScript [Map] keeps its entries in insertion order, and that
      order is observable in [getFollowUpConcepts]; it is an association
      list here.  A [Set] that is only asked for membership and size is a
      [gset]; the Fibonacci cache, only asked by key, is a [gmap].
    - Module-level mutable state (the Fibonacci cache, the graph service)
      is passed in and returned. *)

From Stdlib Require Import Ascii ZArith QArith Qminmax Lia Lqa.
From stdpp Require Import base option list sorting strings gmap.

Local Open Scope Z_scope.

(** ** JavaScript arrays *)

Section js_array.
Context {A : Type}.

(** Relative index of [Array.prototype.slice]: a negative index counts
    from the end, and every index is clamped to [0 .. len]. *)
Definition slice_index (len : nat) (i : Z) : nat :=
  if i <? 0 then Z.to_nat (Z.max (Z.of_nat len + i) 0)
  else Z.to_nat (Z.min i (Z.of_nat len)).

(** [l.slice(start, end)]; [end] is [None] when the argument is omitted. *)
Definition slice (l : list A) (start : Z) (end_ : option Z) : list A :=
  let len := length l in
  let k := slice_index len start in
  let final := match end_ with
               | None => len
               | Some e => slice_index len e
               end in
  take (final - k)%nat (drop k l).

(** [Array.prototype.sort(compareFn)].  The sort is stable (ECMAScript
    2019), so for a comparator that is a consistent ordering the result is
    determined; it is computed by straight insertion.  [after a b] stands
    for [compareFn(a, b) > 0]: [a] has to come after [b]. *)
Fixpoint sort_insert (after : A → A → bool) (x : A) (l : list A) : list A :=
  match l with
  | [] => [x]
  | y :: l' => if after x y then y :: sort_insert after x l' else x :: l
  end.

Definition sort (after : A → A → bool) (l : list A) : list A :=
  foldr (sort_insert after) [] l.

(** [l.find(p)] *)
Fixpoint find (p : A → bool) (l : list A) : option A :=
  match l with
  | [] => None
  | x :: l' => if p x then Some x else find p l'
  end.

(** [l.map(f)] for a callback that reads and writes module state. *)
Fixpoint map_st {S B : Type} (f : A → S → B * S) (l : list A) (s : S)
  : list B * S :=
  match l with
  | [] => ([], s)
  | x :: l' =>
      let '(y, s1) := f x s in
      let '(ys, s2) := map_st f l' s1 in
      (y :: ys, s2)
  end.
End js_array.

(** ** JavaScript [Map] with string keys, in insertion order *)

Abbreviation JsMap V := (list (string * V)).

Section js_map.
Context {V : Type}.

Fixpoint map_get (k : string) (m : JsMap V) : option V :=
  match m with
  | [] => None
  | (k', v) :: m' => if decide (k' = k) then Some v else map_get k m'
  end.

Definition map_has (k : string) (m : JsMap V) : bool :=
  match map_get k m with Some _ => true | None => false end.

(** [m.set(k, v)]: an existing key keeps its position, a new key goes
    last. *)
Fixpoint map_set (k : string) (v : V) (m : JsMap V) : JsMap V :=
  match m with
  | [] => [(k, v)]
  | (k', v') :: m' =>
      if decide (k' = k) then (k, v) :: m' else (k', v') :: map_set k v m'
  end.

Fixpoint map_delete (k : string) (m : JsMap V) : JsMap V :=
  match m with
  | [] => []
  | (k', v') :: m' =>
      if decide (k' = k) then m' else (k', v') :: map_delete k m'
  end.
End js_map.

(** ** types.ts *)

Inductive MemoryAtomType :=
  | user_message
  | model_response
  | steward_note
  | conscious_thought
  | subconscious_reflection
  | axiom.

Global Instance MemoryAtomType_eq_dec : EqDecision MemoryAtomType.
Proof. solve_decision. Defined.

Inductive Role := user | model.

(** [MemoryAtom], without the fields that only the user interface reads
    ([generatedFiles], [cognitiveTrace], [backgroundInsight]). *)
Record MemoryAtom := mkAtom {
  uuid : string;
  timestamp : Z;
  role : Role;
  type : MemoryAtomType;
  text : string;
  isInContext : bool;
  isCollapsed : bool;
  concepts : option (list string);
  activationScore : option Q;
  lastActivatedTurn : option Z
}.

Global Instance Role_eq_dec : EqDecision Role.
Proof. solve_decision. Defined.

Global Instance Q_eq_dec : EqDecision Q.
Proof. solve_decision. Defined.

Global Instance MemoryAtom_eq_dec : EqDecision MemoryAtom.
Proof. solve_decision. Defined.

(** [{ ...atom, activationScore: s }] *)
Definition with_activationScore (atom : MemoryAtom) (s : Q) : MemoryAtom :=
  {| uuid := uuid atom; timestamp := timestamp atom; role := role atom;
     type := type atom; text := text atom; isInContext := isInContext atom;
     isCollapsed := isCollapsed atom; concepts := concepts atom;
     activationScore := Some s;
     lastActivatedTurn := lastActivatedTurn atom |}.

(** The string a [MemoryAtomType] is at run time. *)
Definition type_name (t : MemoryAtomType) : string :=
  match t with
  | user_message => "user_message"
  | model_response => "model_response"
  | steward_note => "steward_note"
  | conscious_thought => "conscious_thought"
  | subconscious_reflection => "subconscious_reflection"
  | axiom => "axiom"
  end.

(** ** recallWeaverService.ts: constants and the memoised Fibonacci *)

Definition STM_CAPACITY : Z := 15.
Definition LTM_RECALL_K : Z := 5.
Definition AXIOM_RECALL_K : Z := 3.

(** [fibonacci(n)] with its cache [fibCache] passed in and returned.  The
    recursion is on [fuel]; [fibonacci_fuel_enough] shows that 41 units are
    enough for every argument and every cache. *)
Fixpoint fibonacci_fuel (fuel : nat) (n : Z) (fibCache : gmap Z Z)
  : option (Z * gmap Z Z) :=
  match fuel with
  | O => None
  | S fuel' =>
      if n <=? 1 then Some (1, fibCache)
      else
        match fibCache !! n with
        | Some v => Some (v, fibCache)
        | None =>
            let limitedN := Z.min n 40 in
            match fibonacci_fuel fuel' (limitedN - 1) fibCache with
            | None => None
            | Some (r1, c1) =>
                match fibonacci_fuel fuel' (limitedN - 2) c1 with
                | None => None
                | Some (r2, c2) =>
                    let result := r1 + r2 in
                    Some (result, <[limitedN := result]> c2)
                end
            end
        end
  end.

(** The call as the program makes it.  The branch [None] is never taken
    ([fibonacci_total]). *)
Definition fibonacci (n : Z) (fibCache : gmap Z Z) : Z * gmap Z Z :=
  match fibonacci_fuel 41 n fibCache with
  | Some r => r
  | None => (1, fibCache)
  end.

(** The decay step of [recall]: the score an atom is given for scoring,
    from its stored score and the turns since it was last activated. *)
Definition decay (score : Q) (turnsOld : Z) (fibCache : gmap Z Z)
  : Q * gmap Z Z :=
  if 0 <? turnsOld then
    let '(fibValue, c) := fibonacci (turnsOld + 2) fibCache in
    let decayFactor := (1 / inject_Z fibValue)%Q in
    (Qmax (1 # 100) (score * (1 - decayFactor))%Q, c)
  else (score, fibCache).

(** The callback of [ltm.map] that builds [decayedLtm]. *)
Definition decayAtom (currentTurn : Z) (atom : MemoryAtom)
    (fibCache : gmap Z Z) : MemoryAtom * gmap Z Z :=
  let lastActivated := default 0 (lastActivatedTurn atom) in
  let turnsOld := currentTurn - lastActivated in
  let '(decayedScore, c) :=
    decay (default 1%Q (activationScore atom)) turnsOld fibCache in
  (with_activationScore atom decayedScore, c).

(** ** srgService.ts: the concept-association graph *)

(** Key: ['type:concept'], value: [Map<'type:concept', weight>]. *)
Abbreviation ConceptGraph := (JsMap (JsMap Z)).

(** What [db.get('srgGraph', 'main')] answers: the read throws, nothing is
    stored, or a stored graph. *)
Inductive DbRead :=
  | DbFailure
  | DbMissing
  | DbFound (storedGraph : ConceptGraph).

(** The fields of [SrgService] and the database behind [dbPromise].  The
    debounced [saveGraph] only writes to the database one second after a
    training call has returned; it is left out. *)
Record SrgService := mkSrg {
  graph : ConceptGraph;
  isLoaded : bool;
  db : DbRead
}.

Definition loadGraph (s : SrgService) : SrgService :=
  match db s with
  | DbFailure => s
  | DbMissing => {| graph := graph s; isLoaded := true; db := db s |}
  | DbFound storedGraph =>
      {| graph := storedGraph; isLoaded := true; db := db s |}
  end.

(** [if (!this.isLoaded) await this.loadGraph()] *)
Definition ensureLoaded (s : SrgService) : SrgService :=
  if isLoaded s then s else loadGraph s.

(** [`${type}:${concept}`] *)
Definition node_key (t : MemoryAtomType) (concept : string) : string :=
  type_name t +:+ ":" +:+ concept.

(** [s.split(':')] and [parts.join(':')] *)
Fixpoint split_colon (s : string) : list string :=
  match s with
  | EmptyString => [EmptyString]
  | String c s' =>
      if Ascii.eqb c ":"%char then EmptyString :: split_colon s'
      else match split_colon s' with
           | [] => [String c EmptyString]
           | p :: ps => String c p :: ps
           end
  end.

Fixpoint join_colon (parts : list string) : string :=
  match parts with
  | [] => EmptyString
  | [p] => p
  | p :: ps => p +:+ ":" +:+ join_colon ps
  end.

(** [followUpKey.split(':').slice(1).join(':')] *)
Definition followUpConceptOf (followUpKey : string) : string :=
  join_colon (slice (split_colon followUpKey) 1 None).

Section training.
(** The concept extraction of the hosted model, as an oracle. *)
Variable extractConcepts : string → list string.

Definition conceptsOrExtract (a : MemoryAtom) : list string :=
  match concepts a with
  | Some cs => cs
  | None => extractConcepts (text a)
  end.

(** The inner loop of [trainOnTransition], over [targetConcepts]. *)
Definition trainTargets (targetType : MemoryAtomType)
    (targetConcepts : list string) (transitions : JsMap Z) : JsMap Z :=
  foldl (λ transitions tConcept,
           let targetKey := node_key targetType tConcept in
           map_set targetKey (default 0 (map_get targetKey transitions) + 1)
             transitions)
        transitions targetConcepts.

(** The body of the outer loop, for one [sConcept]. *)
Definition trainSource (sourceType targetType : MemoryAtomType)
    (targetConcepts : list string) (g : ConceptGraph) (sConcept : string)
  : ConceptGraph :=
  let sourceKey := node_key sourceType sConcept in
  let g := if map_has sourceKey g then g else map_set sourceKey [] g in
  let transitions := default [] (map_get sourceKey g) in
  map_set sourceKey (trainTargets targetType targetConcepts transitions) g.

Definition trainOnTransition (sourceAtom targetAtom : MemoryAtom)
    (s : SrgService) : SrgService :=
  let s := ensureLoaded s in
  let sourceConcepts := conceptsOrExtract sourceAtom in
  let targetConcepts := conceptsOrExtract targetAtom in
  if (length sourceConcepts =? 0)%nat || (length targetConcepts =? 0)%nat
  then s
  else
    {| graph := foldl (trainSource (type sourceAtom) (type targetAtom)
                         targetConcepts)
                      (graph s) sourceConcepts;
       isLoaded := isLoaded s;
       db := db s |}.
End training.

(** The loop over [transitions.entries()] in [getFollowUpConcepts]. *)
Definition addTransitions (associations : JsMap Z) (transitions : JsMap Z)
  : JsMap Z :=
  foldl (λ associations entry,
           let followUpConcept := followUpConceptOf entry.1 in
           map_set followUpConcept
             (default 0 (map_get followUpConcept associations) + entry.2)
             associations)
        associations transitions.

(** The two nested loops over [sourceAtoms] and their concepts; the state is
    the pair of [associations] and [originalConcepts]. *)
Definition followUpConcept_step (g : ConceptGraph) (t : MemoryAtomType)
    (st : JsMap Z * gset string) (concept : string) : JsMap Z * gset string :=
  let originalConcepts := {[concept]} ∪ st.2 in
  let sourceKey := node_key t concept in
  if map_has sourceKey g
  then (addTransitions st.1 (default [] (map_get sourceKey g)),
        originalConcepts)
  else (st.1, originalConcepts).

Definition followUpAtom_step (g : ConceptGraph)
    (st : JsMap Z * gset string) (a : MemoryAtom) : JsMap Z * gset string :=
  foldl (followUpConcept_step g (type a)) st (default [] (concepts a)).

Definition getFollowUpConcepts (sourceAtoms : list MemoryAtom) (topK : Z)
    (s : SrgService) : list string * SrgService :=
  let s := ensureLoaded s in
  let st := foldl (followUpAtom_step (graph s)) ([], ∅) sourceAtoms in
  let associations :=
    foldl (λ associations concept, map_delete concept associations)
          st.1 (elements st.2) in
  ((slice (sort (λ a b, 0 <? b.2 - a.2) associations) 0 (Some topK)).*1, s).

(** ** recallWeaverService.ts: [recall] *)

Record RecallResult := mkResult {
  memories : list (option MemoryAtom);
  axioms : list (option MemoryAtom)
}.

(** The items [{ atom, score }] of [scoredMemories] and [scoredAxioms]. *)
Record Scored := mkScored { atom : MemoryAtom; score : Q }.

(** A count, such as [sharedConcepts.length], used as a score. *)
Definition Qnat (n : nat) : Q := inject_Z (Z.of_nat n).

(** [x > y] on scores *)
Definition Qgtb (x y : Q) : bool := negb (Qle_bool x y).

(** [resonanceScore] of a general memory after the [if] block. *)
Definition memoryResonance (expandedQueryConcepts : gset string)
    (followUpConcepts : list string) (a : MemoryAtom) : Q :=
  match concepts a with
  | Some cs =>
      if (0 <? size expandedQueryConcepts)%nat && (0 <? length cs)%nat then
        let sharedConcepts :=
          filter (λ c, c ∈ expandedQueryConcepts) cs in
        foldl (λ resonanceScore concept,
                 if bool_decide (concept ∈ followUpConcepts)
                 then (resonanceScore + 2)%Q else resonanceScore)
              (0 + Qnat (length sharedConcepts))%Q cs
      else 0%Q
  | None => 0%Q
  end.

(** The callback that builds [scoredMemories]. *)
Definition scoreMemory (expandedQueryConcepts : gset string)
    (followUpConcepts : list string) (a : MemoryAtom) : Scored :=
  let resonanceScore :=
    memoryResonance expandedQueryConcepts followUpConcepts a in
  if Qeq_bool resonanceScore 0 then {| atom := a; score := 0 |}
  else
    let resonanceScore :=
      if decide (type a = subconscious_reflection)
      then (resonanceScore * (11 # 10))%Q else resonanceScore in
    {| atom := a;
       score := (resonanceScore * default 1 (activationScore a))%Q |}.

(** [resonanceScore] of an axiom. *)
Definition axiomResonance (stmConcepts : list string) (a : MemoryAtom) : Q :=
  match concepts a with
  | Some cs =>
      if (0 <? length stmConcepts)%nat && (0 <? length cs)%nat then
        let sharedConcepts := filter (λ c, c ∈ stmConcepts) cs in
        (Qnat (length sharedConcepts) * 2)%Q
      else 0%Q
  | None => 0%Q
  end.

(** The callback that builds [scoredAxioms]. *)
Definition scoreAxiom (stmConcepts : list string) (a : MemoryAtom) : Scored :=
  let resonanceScore := axiomResonance stmConcepts a in
  {| atom := a;
     score := (resonanceScore * default 1 (activationScore a))%Q |}.

(** Step 6, the same for both pools: filter, sort, cut, and map each item
    back to the atom of [ltm] that has its uuid. *)
Definition selectTop (k : Z) (ltm : list MemoryAtom) (scored : list Scored)
  : list (option MemoryAtom) :=
  fmap (λ item,
         find (λ originalAtom,
                 bool_decide (uuid originalAtom = uuid (atom item))) ltm)
      (slice (sort (λ a b, Qgtb (score b - score a) 0)
                (filter (λ item, Qgtb (score item) 0 = true) scored))
         0 (Some k)).

Definition stmOf (memory : list MemoryAtom) : list MemoryAtom :=
  slice memory (- STM_CAPACITY) None.

Definition ltmOf (memory : list MemoryAtom) : list MemoryAtom :=
  slice memory 0 (Some (- STM_CAPACITY)).

Definition stmConceptsOf (stm : list MemoryAtom) : list string :=
  flat_map (λ a, default [] (concepts a)) stm.

Definition recall (memory : list MemoryAtom) (currentTurn : Z)
    (srg : SrgService) (fibCache : gmap Z Z)
  : RecallResult * SrgService * gmap Z Z :=
  if Z.of_nat (length memory) <=? STM_CAPACITY then
    ({| memories := []; axioms := [] |}, srg, fibCache)
  else
    let stm := stmOf memory in
    let ltm := ltmOf memory in
    let decayed := map_st (decayAtom currentTurn) ltm fibCache in
    let decayedLtm := decayed.1 in
    let stmConcepts := stmConceptsOf stm in
    let followUp := getFollowUpConcepts stm 10 srg in
    let followUpConcepts := followUp.1 in
    let expandedQueryConcepts : gset string :=
      list_to_set (stmConcepts ++ followUpConcepts) in
    let scoredMemories :=
      fmap (scoreMemory expandedQueryConcepts followUpConcepts)
          (filter (λ a, type a ≠ axiom) decayedLtm) in
    let scoredAxioms :=
      fmap (scoreAxiom stmConcepts)
          (filter (λ a, type a = axiom) decayedLtm) in
    ({| memories := selectTop LTM_RECALL_K ltm scoredMemories;
        axioms := selectTop AXIOM_RECALL_K ltm scoredAxioms |},
     followUp.2, decayed.2).

(** The Fibonacci numbers of the specification: 1, 1, 2, 3, 5, ... computed
    by iteration, and capped at index 40. *)
Definition fib_step (p : Z * Z) : Z * Z := (p.2, p.1 + p.2).
Definition fib_seq (n : nat) : Z := (Nat.iter n fib_step (1, 1)).1.
Definition fib (n : Z) : Z := fib_seq (Z.to_nat (Z.min n 40)).

(** A cache holds Fibonacci numbers only. *)
Definition cache_ok (fibCache : gmap Z Z) : Prop :=
  ∀ k v, fibCache !! k = Some v → v = fib k.

(** ** The decay function of the specification *)

(** The part of a score that survives [turnsOld] turns, [n = turnsOld + 2]. *)
Definition kept (n : Z) : Q := (1 - 1 / inject_Z (fib n))%Q.

(** [decay] of the specification, with the Fibonacci table [fib]. *)
Definition decay_spec (score : Q) (turnsOld : Z) : Q :=
  if decide (turnsOld ≤ 0) then score
  else Qmax (1 # 100) (score * (1 - 1 / inject_Z (fib (turnsOld + 2))))%Q.



(** ** The quantities the specification speaks of *)


(** The concepts of [cs] that are in [X], each counted as often as it
    occurs in [cs]; it is [overlap cs X] when [cs] has no repeats. *)
Definition sharedWith (cs : list string) (X : gset string) : nat :=
  length (filter (λ c, c ∈ X) cs).

Definition conceptsOf (a : MemoryAtom) : list string :=
  default [] (concepts a).

Definition turnsOldOf (currentTurn : Z) (a : MemoryAtom) : Z :=
  currentTurn - default 0 (lastActivatedTurn a).

Definition decayedScoreOf (currentTurn : Z) (a : MemoryAtom) : Q :=
  decay_spec (default 1%Q (activationScore a)) (turnsOldOf currentTurn a).

(** The scoring copy of an atom. *)
Definition decayedCopy (currentTurn : Z) (a : MemoryAtom) : MemoryAtom :=
  with_activationScore a (decayedScoreOf currentTurn a).

(** The intermediate values of [recall] on a log of more than 15 atoms. *)
Definition followUpConceptsOf (memory : list MemoryAtom) (srg : SrgService)
  : list string :=
  (getFollowUpConcepts (stmOf memory) 10 srg).1.

Definition expandedConceptsOf (memory : list MemoryAtom) (srg : SrgService)
  : gset string :=
  list_to_set (stmConceptsOf (stmOf memory) ++ followUpConceptsOf memory srg).

Definition decayedLtmOf (memory : list MemoryAtom) (currentTurn : Z)
    (fibCache : gmap Z Z) : list MemoryAtom :=
  (map_st (decayAtom currentTurn) (ltmOf memory) fibCache).1.

Definition scoredMemoriesOf (memory : list MemoryAtom) (currentTurn : Z)
    (srg : SrgService) (fibCache : gmap Z Z) : list Scored :=
  fmap (scoreMemory (expandedConceptsOf memory srg)
         (followUpConceptsOf memory srg))
      (filter (λ a, type a ≠ axiom) (decayedLtmOf memory currentTurn fibCache)).

Definition scoredAxiomsOf (memory : list MemoryAtom) (currentTurn : Z)
    (fibCache : gmap Z Z) : list Scored :=
  fmap (scoreAxiom (stmConceptsOf (stmOf memory)))
      (filter (λ a, type a = axiom) (decayedLtmOf memory currentTurn fibCache)).


(** ** A log of 20 atoms

    The archive is [ltm_general .. ltm_axiom_far]; the working set is
    [stm_query] followed by 14 atoms without concepts.  The graph has
    learnt that [fish] follows [cat]. *)
Definition example_atom (id : string) (t : MemoryAtomType)
    (cs : list string) (s : Q) (last : Z) : MemoryAtom :=
  {| uuid := id; timestamp := 0; role := user; type := t; text := "";
     isInContext := true; isCollapsed := false; concepts := Some cs;
     activationScore := Some s; lastActivatedTurn := Some last |}.

Definition ltm_general : MemoryAtom :=
  example_atom "a1" user_message ["fish"; "bird"] 1 10.
Definition ltm_axiom : MemoryAtom :=
  example_atom "a2" axiom ["cat"; "bird"; "tree"] 1 3.
Definition ltm_reflection : MemoryAtom :=
  example_atom "a3" subconscious_reflection ["cat"; "bird"; "tree"] (1 # 2) 1.
Definition ltm_unrelated : MemoryAtom :=
  example_atom "a4" model_response ["zebra"] 1 1.
Definition ltm_axiom_far : MemoryAtom :=
  example_atom "a5" axiom ["zebra"] 1 1.
Definition stm_query : MemoryAtom :=
  example_atom "a6" user_message ["cat"; "bird"; "tree"] 1 20.

Definition example_stm_rest : list MemoryAtom :=
  (λ n : nat, example_atom (String (Ascii.ascii_of_nat (97 + n)) "s")
                model_response [] 1 20) <$> seq 0 14.

Definition example_log : list MemoryAtom :=
  [ltm_general; ltm_axiom; ltm_reflection; ltm_unrelated; ltm_axiom_far;
   stm_query] ++ example_stm_rest.

Definition example_srg : SrgService :=
  {| graph := [("user_message:cat", [("model_response:fish", 1)])];
     isLoaded := true; db := DbMissing |}.

(** Two inputs for [getFollowUpConcepts].  In the first the key
    [user_message:a] is met twice; in the second two concepts tie and
    [topK] cuts between them. *)
Definition ranking_atoms : list MemoryAtom :=
  [example_atom "r1" user_message ["a"] 1 1;
   example_atom "r2" user_message ["a"; "b"] 1 1].

Definition ranking_srg : SrgService :=
  {| graph := [("user_message:a", [("model_response:x", 3)]);
               ("user_message:b", [("model_response:y", 5)])];
     isLoaded := true; db := DbMissing |}.

Definition cut_atoms : list MemoryAtom :=
  [example_atom "k1" user_message ["a"] 1 1].

Definition cut_srg : SrgService :=
  {| graph := [("user_message:a",
                [("model_response:x", 5); ("model_response:y", 5);
                 ("axiom:z", 7)])];
     isLoaded := true; db := DbMissing |}.


(** ** The graph as the specification speaks of it *)

(** The weight of the edge from [k1] to [k2]; an absent edge weighs 0. *)
Definition weight (g : ConceptGraph) (k1 k2 : string) : Z :=
  default 0 (map_get k1 g ≫= map_get k2).

(** How often [k] occurs in [l]. *)
Definition occurrences (k : string) (l : list string) : nat :=
  length (filter (λ x, x = k) l).

(** ** Follow-up concepts as the specification speaks of them *)

(** The keys [type:concept] of the source atoms, in the order of the two
    loops, and the concepts themselves. *)
Definition sourceKeysOf (sourceAtoms : list MemoryAtom) : list string :=
  flat_map (λ a, node_key (type a) <$> conceptsOf a) sourceAtoms.

Definition originalConceptsOf (sourceAtoms : list MemoryAtom) : list string :=
  flat_map conceptsOf sourceAtoms.

(** The outgoing edges [(followUpKey, weight)] met by the loops, in order. *)
Definition edgesFrom (g : ConceptGraph) (sourceAtoms : list MemoryAtom)
  : list (string * Z) :=
  flat_map (λ k, default [] (map_get k g)) (sourceKeysOf sourceAtoms).

(** The target concepts in the order they are met. *)
Definition encountered (g : ConceptGraph) (sourceAtoms : list MemoryAtom)
  : list string :=
  (λ e, followUpConceptOf e.1) <$> edgesFrom g sourceAtoms.

(** The sum of the weights of the edges of [es] that lead to concept [c],
    whatever the category of the target. *)
Definition weightTo (c : string) (es : list (string * Z)) : Z :=
  foldr Z.add 0 (snd <$> filter (λ e, followUpConceptOf e.1 = c) es).

Definition aggregatedWeight (g : ConceptGraph) (sourceAtoms : list MemoryAtom)
    (c : string) : Z :=
  weightTo c (edgesFrom g sourceAtoms).

(** The same sum with each key [type:concept] of the source atoms taken
    once: the edges out of the union of the keys. *)
Definition unionWeight (g : ConceptGraph) (sourceAtoms : list MemoryAtom)
    (c : string) : Z :=
  weightTo c
    (flat_map (λ k, default [] (map_get k g))
       (elements (list_to_set (sourceKeysOf sourceAtoms) : gset string))).

(** The position at which [c] is first met in [l]. *)
Fixpoint first_index (c : string) (l : list string) : nat :=
  match l with
  | [] => 0
  | x :: l' => if decide (x = c) then 0 else S (first_index c l')
  end.

(** The elements of [l] in the order of their first occurrence. *)
Fixpoint first_occurrences (l : list string) : list string :=
  match l with
  | [] => []
  | x :: l' => x :: filter (λ y, y ≠ x) (first_occurrences l')
  end.

(** ** [recall] on objects

    In the program an atom is an object and the log is an array of
    references to objects, so a callee could write to the caller's atoms.
    Here the heap is the list of the objects allocated so far, a reference
    is a position in it, and [{ ...atom, activationScore }] allocates a new
    object.  [recall_refs] is [recall] with every atom read through its
    reference. *)

Global Instance MemoryAtom_inhabited : Inhabited MemoryAtom :=
  populate {| uuid := ""; timestamp := 0; role := user; type := user_message;
              text := ""; isInContext := false; isCollapsed := false;
              concepts := None; activationScore := None;
              lastActivatedTurn := None |}.

(** Reading the object behind a reference. *)
Definition deref (h : list MemoryAtom) (r : nat) : MemoryAtom := h !!! r.

(** A new object: its reference and the heap that holds it. *)
Definition alloc (h : list MemoryAtom) (a : MemoryAtom)
  : nat * list MemoryAtom :=
  (length h, h ++ [a]).

(** The callback of [ltm.map], on references: the state is the heap and the
    Fibonacci cache. *)
Definition decayAtom_ref (currentTurn : Z) (r : nat)
    (st : list MemoryAtom * gmap Z Z) : nat * (list MemoryAtom * gmap Z Z) :=
  let copy := decayAtom currentTurn (deref st.1 r) st.2 in
  let new := alloc st.1 copy.1 in
  (new.1, (new.2, copy.2)).

(** The items [{ atom, score }], [atom] being a reference. *)
Record ScoredRef := mkScoredRef { atomRef : nat; scoreOf : Q }.

Record RecallRefs := mkRefs {
  memoryRefs : list (option nat);
  axiomRefs : list (option nat)
}.

Definition selectTop_refs (k : Z) (h : list MemoryAtom) (ltm : list nat)
    (scored : list ScoredRef) : list (option nat) :=
  fmap (λ item,
         find (λ originalAtom,
                 bool_decide (uuid (deref h originalAtom)
                              = uuid (deref h (atomRef item)))) ltm)
      (slice (sort (λ a b, Qgtb (scoreOf b - scoreOf a) 0)
                (filter (λ item, Qgtb (scoreOf item) 0 = true) scored))
         0 (Some k)).

Definition recall_refs (h : list MemoryAtom) (memory : list nat)
    (currentTurn : Z) (srg : SrgService) (fibCache : gmap Z Z)
  : RecallRefs * list MemoryAtom * SrgService * gmap Z Z :=
  if Z.of_nat (length memory) <=? STM_CAPACITY then
    ({| memoryRefs := []; axiomRefs := [] |}, h, srg, fibCache)
  else
    let stm := slice memory (- STM_CAPACITY) None in
    let ltm := slice memory 0 (Some (- STM_CAPACITY)) in
    let decayed := map_st (decayAtom_ref currentTurn) ltm (h, fibCache) in
    let decayedLtm := decayed.1 in
    let h := decayed.2.1 in
    let stmConcepts := stmConceptsOf (deref h <$> stm) in
    let followUp := getFollowUpConcepts (deref h <$> stm) 10 srg in
    let followUpConcepts := followUp.1 in
    let expandedQueryConcepts : gset string :=
      list_to_set (stmConcepts ++ followUpConcepts) in
    let scoredMemories :=
      fmap (λ r, {| atomRef := r;
                   scoreOf := score (scoreMemory expandedQueryConcepts
                                       followUpConcepts (deref h r)) |})
          (filter (λ r, type (deref h r) ≠ axiom) decayedLtm) in
    let scoredAxioms :=
      fmap (λ r, {| atomRef := r;
                   scoreOf := score (scoreAxiom stmConcepts (deref h r)) |})
          (filter (λ r, type (deref h r) = axiom) decayedLtm) in
    ({| memoryRefs := selectTop_refs LTM_RECALL_K h ltm scoredMemories;
        axiomRefs := selectTop_refs AXIOM_RECALL_K h ltm scoredAxioms |},
     h, followUp.2, decayed.2.2).

(** A heap of the 20 atoms of [example_log], and the log as references. *)
Definition example_heap : list MemoryAtom := example_log.
Definition example_refs : list nat := seq 0 20.

(** The item a reference-level item stands for. *)
Definition toScored (h : list MemoryAtom) (item : ScoredRef) : Scored :=
  {| atom := deref h (atomRef item); score := scoreOf item |}.

(** Reading what a look-up by uuid returned. *)
Definition deref_found (h : list MemoryAtom) (x : option nat)
  : option MemoryAtom :=
  deref h <$> x.

(** ** The Fibonacci cache *)

(** The cache as a table: it holds exactly the indices 2 to [m], each with
    its Fibonacci number.  [m = 1] is the empty cache. *)
Definition cache_table (m : Z) (fibCache : gmap Z Z) : Prop :=
  ∀ k, fibCache !! k = if decide (2 ≤ k ≤ m) then Some (fib k) else None.

(** ** The graph service over several calls *)

(** A run of [trainOnTransition] calls, one per pair (source, target). *)
Definition trainAll (extractConcepts : string → list string)
    (pairs : list (MemoryAtom * MemoryAtom)) (s : SrgService) : SrgService :=
  foldl (λ s p, trainOnTransition extractConcepts p.1 p.2 s) s pairs.

(** What a run adds to the edge from [k1] to [k2]. *)
Definition trained (extractConcepts : string → list string)
    (pairs : list (MemoryAtom * MemoryAtom)) (k1 k2 : string) : Z :=
  foldr Z.add 0
    ((λ p, Z.of_nat (occurrences k1
                       (node_key (type p.1)
                          <$> conceptsOrExtract extractConcepts p.1))
           * Z.of_nat (occurrences k2
                         (node_key (type p.2)
                            <$> conceptsOrExtract extractConcepts p.2)))
       <$> pairs).

(** ** Scores as counts and thresholds *)

#[global] Instance Qlt_decision (x y : Q) : Decision (x < y)%Q.
Proof.
  destruct (Qlt_le_dec x y) as [Hlt|Hle]; [by left|right].
  by apply Qle_not_lt.
Defined.

(** ** hooks/useChat.ts: the session state and its updaters

    The hook keeps a [SessionState] and changes it through
    [setSession(prev => ...)]; each updater is modelled by the function it
    passes, from the previous state to the next.  The hook has its own copy
    of [fibonacci] and of its cache, with the code of the one of
    recallWeaverService.ts: the same definition is used, the cache being
    passed in and returned. *)

Record ProjectFile := mkFile {
  name : string;
  content : string;
  language : string
}.

Global Instance ProjectFile_eq_dec : EqDecision ProjectFile.
Proof. solve_decision. Defined.

Record SessionState := mkSession {
  messages : list MemoryAtom;
  projectFiles : list ProjectFile;
  contextFileNames : list string;
  selfNarrative : option string
}.

(** [entries.forEach(([k, v]) => m.set(k, v))] and [new Map(entries)] *)
Definition map_set_all {V} (m : JsMap V) (entries : list (string * V))
  : JsMap V :=
  foldl (λ m e, map_set e.1 e.2 m) m entries.

Definition new_Map {V} (entries : list (string * V)) : JsMap V :=
  map_set_all [] entries.

(** A JavaScript [Set] of strings that is iterated: the elements in the
    order of insertion. *)
Definition set_add (x : string) (s : list string) : list string :=
  if bool_decide (x ∈ s) then s else s ++ [x].

Definition new_Set (l : list string) : list string :=
  foldl (λ s x, set_add x s) [] l.

Definition addAtom (atom : MemoryAtom) (prev : SessionState) : SessionState :=
  {| messages := messages prev ++ [atom];
     projectFiles := projectFiles prev;
     contextFileNames := contextFileNames prev;
     selfNarrative := selfNarrative prev |}.

Definition applyActivationDecay (currentTurn : Z) (prev : SessionState)
    (fibCache : gmap Z Z) : SessionState * gmap Z Z :=
  let decayed := map_st (decayAtom currentTurn) (messages prev) fibCache in
  ({| messages := decayed.1;
      projectFiles := projectFiles prev;
      contextFileNames := contextFileNames prev;
      selfNarrative := selfNarrative prev |},
   decayed.2).

(** [{ ...m, activationScore: 1.0, lastActivatedTurn: turn }] *)
Definition reactivated (m : MemoryAtom) (turn : Z) : MemoryAtom :=
  {| uuid := uuid m; timestamp := timestamp m; role := role m;
     type := type m; text := text m; isInContext := isInContext m;
     isCollapsed := isCollapsed m; concepts := concepts m;
     activationScore := Some 1%Q;
     lastActivatedTurn := Some turn |}.

Definition reactivateAtoms (uuids : list string) (turn : Z)
    (prev : SessionState) : SessionState :=
  let uuidSet : gset string := list_to_set uuids in
  {| messages :=
       (λ m, if bool_decide (uuid m ∈ uuidSet) then reactivated m turn else m)
         <$> messages prev;
     projectFiles := projectFiles prev;
     contextFileNames := contextFileNames prev;
     selfNarrative := selfNarrative prev |}.

Definition addFiles (files : list ProjectFile) (prev : SessionState)
  : SessionState :=
  let updatedFilesMap := new_Map ((λ f, (name f, f)) <$> projectFiles prev) in
  let updatedFilesMap :=
    foldl (λ m newFile, map_set (name newFile) newFile m)
          updatedFilesMap files in
  let newProjectFiles := updatedFilesMap.*2 in
  let newContextFiles :=
    new_Set (contextFileNames prev ++ (name <$> files)) in
  {| messages := messages prev;
     projectFiles := newProjectFiles;
     contextFileNames := newContextFiles;
     selfNarrative := selfNarrative prev |}.

Definition deleteFiles (filesToDelete : list ProjectFile)
    (prev : SessionState) : SessionState :=
  let namesToDelete : gset string := list_to_set (name <$> filesToDelete) in
  {| messages := messages prev;
     projectFiles :=
       filter (λ f, name f ∉ namesToDelete) (projectFiles prev);
     contextFileNames :=
       filter (λ name, name ∉ namesToDelete) (contextFileNames prev);
     selfNarrative := selfNarrative prev |}.

Definition toggleProjectFileContext (fileName : string)
    (prev : SessionState) : SessionState :=
  {| messages := messages prev;
     projectFiles := projectFiles prev;
     contextFileNames :=
       if bool_decide (fileName ∈ contextFileNames prev)
       then filter (λ name, name ≠ fileName) (contextFileNames prev)
       else contextFileNames prev ++ [fileName];
     selfNarrative := selfNarrative prev |}.

Definition isFileInContext (fileName : string) (session : SessionState)
  : bool :=
  bool_decide (fileName ∈ contextFileNames session).

(** [currentTurn] of [sendMessage] *)
Definition currentTurnOf (session : SessionState) : Z :=
  Z.of_nat (length (filter (λ m, type m = user_message) (messages session)))
  + 1.








(** The object [loadState] is given: it comes from storage or from a file,
    and any of its fields may be missing. *)
Record StoredState := mkStored {
  stored_messages : option (list MemoryAtom);
  stored_projectFiles : option (list ProjectFile);
  stored_contextFileNames : option (list string);
  stored_selfNarrative : option string
}.

(** The callback of [state.messages.map] in [loadState]. *)
Definition hydrate (all : list MemoryAtom) (index : nat) (m : MemoryAtom)
  : MemoryAtom :=
  let userMessagesBeforeThis :=
    length (filter (λ msg, type msg = user_message)
              (slice all 0 (Some (Z.of_nat index + 1)))) in
  {| uuid := uuid m; timestamp := timestamp m; role := role m;
     type := type m; text := text m; isInContext := isInContext m;
     isCollapsed := isCollapsed m; concepts := concepts m;
     activationScore := Some (default 1%Q (activationScore m));
     lastActivatedTurn :=
       Some (default (Z.of_nat userMessagesBeforeThis)
               (lastActivatedTurn m)) |}.

(** [loadState]: the new session, or the old one when the object is
    refused. *)
Definition loadState (state : StoredState) (session : SessionState)
  : SessionState :=
  match stored_messages state, stored_projectFiles state,
        stored_contextFileNames state with
  | Some ms, Some files, Some names =>
      {| messages := imap (hydrate ms) ms;
         projectFiles := files;
         contextFileNames := names;
         selfNarrative := Some (default "" (stored_selfNarrative state)) |}
  | _, _, _ => session
  end.

(** What a saved session is when it is read again. *)
Definition stored (session : SessionState) : StoredState :=
  {| stored_messages := Some (messages session);
     stored_projectFiles := Some (projectFiles session);
     stored_contextFileNames := Some (contextFileNames session);
     stored_selfNarrative := selfNarrative session |}.

(** The uuids [sendMessage] hands to [reactivateAtoms]; reading [.uuid] of
    an [undefined] element throws, which is [None]. *)
Definition recalledUuids (r : RecallResult) : option (list string) :=
  recalledMemories ← mapM (fmap uuid) (memories r);
  recalledAxioms ← mapM (fmap uuid) (axioms r);
  Some (recalledMemories ++ recalledAxioms).

(** [sendMessage] up to [reactivateAtoms]: the state updates queued so
    far, applied to the session the call closes over, and the result of
    [recall]. *)
Definition sendMessage_recall (session : SessionState) (userAtom : MemoryAtom)
    (srg : SrgService) (hookCache recallCache : gmap Z Z)
  : option (RecallResult * SessionState * SrgService * gmap Z Z * gmap Z Z) :=
  let currentTurn := currentTurnOf session in
  let decayed := applyActivationDecay currentTurn session hookCache in
  let added := addAtom userAtom decayed.1 in
  let allHistory := messages session ++ [userAtom] in
  let recalled := recall allHistory currentTurn srg recallCache in
  uuids ← recalledUuids recalled.1.1;
  Some (recalled.1.1, reactivateAtoms uuids currentTurn added,
        recalled.1.2, decayed.2, recalled.2).
(** * Properties *)

(** ** The memoised Fibonacci *)

Lemma fib_seq_SS n : fib_seq (S (S n)) = fib_seq (S n) + fib_seq n.
Proof.
  unfold fib_seq. simpl.
  destruct (Nat.iter n fib_step (1, 1)) as [a b]. simpl. lia.
Qed.

Lemma fib_seq_pos n : 1 ≤ fib_seq n.
Proof.
  induction (lt_wf n) as [n _ IH].
  destruct n as [|[|n]]; [done..|].
  rewrite fib_seq_SS.
  pose proof (IH (S n) ltac:(lia)). pose proof (IH n ltac:(lia)). lia.
Qed.

Lemma fib_seq_mono n m : (n ≤ m)%nat → fib_seq n ≤ fib_seq m.
Proof.
  induction 1 as [|m _ IH]; [lia|].
  etrans; [exact IH|].
  destruct m as [|m]; [done|].
  rewrite fib_seq_SS. pose proof (fib_seq_pos m). lia.
Qed.

Lemma fib_pos n : 1 ≤ fib n.
Proof. apply fib_seq_pos. Qed.

Lemma fib_le_1 n : n ≤ 1 → fib n = 1.
Proof.
  intros Hn. unfold fib.
  destruct (Z.to_nat (Z.min n 40)) as [|[|k]] eqn:E; [done..|lia].
Qed.

Lemma fib_rec n : 2 ≤ n → fib n = fib (Z.min n 40 - 1) + fib (Z.min n 40 - 2).
Proof.
  intros Hn. unfold fib.
  replace (Z.to_nat (Z.min n 40)) with (S (S (Z.to_nat (Z.min n 40 - 2)))) by lia.
  rewrite fib_seq_SS. f_equal; f_equal; lia.
Qed.

Lemma fib_mono n m : n ≤ m → fib n ≤ fib m.
Proof. intros H. apply fib_seq_mono. lia. Qed.

Lemma fib_cap n : 40 < n → fib n = fib 40.
Proof. intros H. unfold fib. f_equal. lia. Qed.

Lemma cache_ok_empty : cache_ok ∅.
Proof. intros k v. by rewrite lookup_empty. Qed.

Lemma fibonacci_fuel_spec fuel n c :
  cache_ok c → (Z.to_nat (Z.min n 40) < fuel)%nat →
  ∃ c', fibonacci_fuel fuel n c = Some (fib n, c') ∧ cache_ok c'.
Proof.
  revert n c. induction fuel as [|fuel IH]; intros n c Hc Hf; [lia|].
  simpl. destruct (Z.leb_spec n 1) as [Hn|Hn].
  { exists c. by rewrite fib_le_1. }
  destruct (c !! n) as [v|] eqn:Hlook.
  { exists c. by rewrite (Hc _ _ Hlook). }
  destruct (IH (Z.min n 40 - 1) c Hc ltac:(lia)) as (c1 & -> & Hc1).
  destruct (IH (Z.min n 40 - 2) c1 Hc1 ltac:(lia)) as (c2 & -> & Hc2).
  rewrite <- fib_rec by lia.
  eexists; split; [done|].
  intros k v. rewrite lookup_insert. case_decide as Hk.
  - intros [= <-]. subst k. unfold fib. f_equal. f_equal. lia.
  - apply Hc2.
Qed.

Lemma fibonacci_fuel_enough fuel n c :
  (Z.to_nat (Z.min n 40) < fuel)%nat → is_Some (fibonacci_fuel fuel n c).
Proof.
  revert n c. induction fuel as [|fuel IH]; intros n c Hf; [lia|].
  simpl. destruct (Z.leb_spec n 1) as [Hn|Hn]; [done|].
  destruct (c !! n); [done|].
  destruct (IH (Z.min n 40 - 1) c ltac:(lia)) as [[r1 c1] ->].
  destruct (IH (Z.min n 40 - 2) c1 ltac:(lia)) as [[r2 c2] ->].
  done.
Qed.

Lemma fibonacci_total n c : fibonacci_fuel 41 n c = Some (fibonacci n c).
Proof.
  unfold fibonacci.
  by destruct (fibonacci_fuel_enough 41 n c ltac:(lia)) as [r ->].
Qed.

Lemma fibonacci_spec n c :
  cache_ok c → (fibonacci n c).1 = fib n ∧ cache_ok (fibonacci n c).2.
Proof.
  intros Hc. unfold fibonacci.
  destruct (fibonacci_fuel_spec 41 n c Hc ltac:(lia)) as (c' & -> & Hc').
  done.
Qed.

(** ** The decay function *)

Lemma Qdiv_1_inject (a : Z) : 0 < a → (1 / inject_Z a == 1 # Z.to_pos a)%Q.
Proof.
  intros Ha. destruct a as [|p|p]; try lia.
  unfold Qeq, Qdiv, Qmult, Qinv, inject_Z. simpl. lia.
Qed.

Lemma kept_range n : (0 <= kept n)%Q ∧ (kept n < 1)%Q.
Proof.
  unfold kept. pose proof (fib_pos n) as Hf.
  rewrite (Qdiv_1_inject (fib n)) by lia.
  assert (0 < 1 # Z.to_pos (fib n))%Q by reflexivity.
  assert (1 # Z.to_pos (fib n) <= 1)%Q by (unfold Qle; simpl; lia).
  split; lra.
Qed.

Lemma kept_mono n m : n ≤ m → (kept n <= kept m)%Q.
Proof.
  intros Hnm. unfold kept.
  pose proof (fib_pos n) as Hn. pose proof (fib_mono n m Hnm) as Hm.
  rewrite (Qdiv_1_inject (fib n)), (Qdiv_1_inject (fib m)) by lia.
  assert (1 # Z.to_pos (fib m) <= 1 # Z.to_pos (fib n))%Q
    by (unfold Qle; simpl; lia).
  lra.
Qed.

Lemma decay_value score turnsOld c :
  cache_ok c →
  (decay score turnsOld c).1 = decay_spec score turnsOld
  ∧ cache_ok (decay score turnsOld c).2.
Proof.
  intros Hc. unfold decay, decay_spec.
  destruct (Z.ltb_spec 0 turnsOld) as [Ht|Ht].
  - rewrite decide_False by lia.
    destruct (fibonacci_spec (turnsOld + 2) c Hc) as [Hv Hc'].
    destruct (fibonacci (turnsOld + 2) c) as [fibValue c']. simpl in *.
    by subst fibValue.
  - by rewrite decide_True by lia.
Qed.

Lemma decay_spec_floor score t : 0 < t → (1 # 100 <= decay_spec score t)%Q.
Proof.
  intros Ht. unfold decay_spec. rewrite decide_False by lia.
  apply Q.le_max_l.
Qed.

Lemma decay_spec_le score t :
  (1 # 100 <= score)%Q → (decay_spec score t <= score)%Q.
Proof.
  intros Hs. unfold decay_spec. case_decide; [lra|].
  fold (kept (t + 2)). destruct (kept_range (t + 2)).
  apply Q.max_lub; [done|]. nra.
Qed.

Lemma decay_spec_mono score t t' :
  1 ≤ t → t ≤ t' → (decay_spec score t <= decay_spec score t')%Q.
Proof.
  intros Ht Htt'. unfold decay_spec. rewrite !decide_False by lia.
  fold (kept (t + 2)) (kept (t' + 2)).
  pose proof (kept_mono (t + 2) (t' + 2) ltac:(lia)) as Hk.
  destruct (kept_range (t + 2)) as [H0 _].
  destruct (Qlt_le_dec score 0) as [Hneg|Hpos].
  - apply Q.max_lub; [apply Q.le_max_l|].
    apply Qle_trans with (1 # 100)%Q; [nra|apply Q.le_max_l].
  - apply Q.max_le_compat_l. nra.
Qed.

(** C3.  The decay computation returns the score unchanged when
    [turnsOld <= 0] (so [decay(score, 0) = score]) and otherwise
    [max(0.01, score * (1 - 1 / fib(turnsOld + 2)))], where the memoised
    [fibonacci] of the code returns, within 41 nested calls, the Fibonacci
    sequence 1, 1, 2, 3, ... capped at index 40:
    [fibonacci(n) = fibonacci(40)] for every [n > 40]. *)
Theorem decay_computation (score : Q) (turnsOld : Z) (fibCache : gmap Z Z) :
  cache_ok fibCache →
  (turnsOld ≤ 0 → (decay score turnsOld fibCache).1 = score)
  ∧ (decay score 0 fibCache).1 = score
  ∧ (0 < turnsOld →
     (decay score turnsOld fibCache).1
     = Qmax (1 # 100) (score * (1 - 1 / inject_Z (fib (turnsOld + 2))))%Q)
  ∧ (∀ n, fibonacci_fuel 41 n fibCache = Some (fibonacci n fibCache))
  ∧ (∀ n, (fibonacci n fibCache).1 = fib_seq (Z.to_nat (Z.min n 40)))
  ∧ (∀ n, 40 < n → (fibonacci n fibCache).1 = (fibonacci 40 fibCache).1)
  ∧ (∀ n, fib_seq (S (S n)) = fib_seq (S n) + fib_seq n)
  ∧ fib_seq 0 = 1 ∧ fib_seq 1 = 1.
Proof.
  intros Hc.
  pose proof (decay_value score turnsOld fibCache Hc) as [Hv _].
  split_and!.
  - intros Ht. rewrite Hv. unfold decay_spec. by rewrite decide_True.
  - done.
  - intros Ht. rewrite Hv. unfold decay_spec. by rewrite decide_False by lia.
  - intros n. apply fibonacci_total.
  - intros n. by destruct (fibonacci_spec n fibCache Hc) as [-> _].
  - intros n Hn.
    destruct (fibonacci_spec n fibCache Hc) as [-> _].
    destruct (fibonacci_spec 40 fibCache Hc) as [-> _].
    by apply fib_cap.
  - apply fib_seq_SS.
  - done.
  - done.
Qed.

Lemma decay_computation_witness :
  cache_ok ∅
  ∧ (decay 1 10 ∅).1
    = Qmax (1 # 100) (1 * (1 - 1 / inject_Z (fib (10 + 2))))%Q.
Proof.
  split; [apply cache_ok_empty|].
  apply (decay_computation 1 10 ∅ cache_ok_empty). lia.
Defined.

(** C4, as the specification states it, fails: one turn after its
    activation an atom of score 1 keeps 2/3, two turns after it keeps 4/5.
    The loss [1 / fib(t + 2)] shrinks as [t] grows, so the decayed score
    grows with [t].  And a score below 0.01 is returned as it is when
    [t <= 0]. *)
Lemma decay_not_non_increasing :
  ((decay 1 1 ∅).1 == 2 # 3)%Q ∧ ((decay 1 2 ∅).1 == 4 # 5)%Q
  ∧ ¬ ((decay 1 2 ∅).1 <= (decay 1 1 ∅).1)%Q
  ∧ (decay 0 0 ∅).1 = 0%Q ∧ ¬ (1 # 100 <= (decay 0 0 ∅).1)%Q.
Proof.
  split_and!; [reflexivity|reflexivity| |reflexivity|];
    vm_compute; intros H; by apply H.
Qed.

(** C4 as amended.  For a score of at least 0.01 the decayed score lies
    between 0.01 and the score, for every [t]: decay never raises a score,
    and [t <= 0] gives the score itself.  From [t = 1] on the decayed score
    is non-decreasing in [t], and constant once [t >= 38].  For every score
    and every [t >= 1] the result is at least 0.01. *)
Theorem decay_bounds (score : Q) (t t' : Z) (fibCache : gmap Z Z) :
  cache_ok fibCache →
  ((1 # 100 <= score)%Q →
   (1 # 100 <= (decay score t fibCache).1)%Q
   ∧ ((decay score t fibCache).1 <= score)%Q)
  ∧ (1 ≤ t → (1 # 100 <= (decay score t fibCache).1)%Q)
  ∧ (1 ≤ t → t ≤ t' →
     ((decay score t fibCache).1 <= (decay score t' fibCache).1)%Q)
  ∧ (38 ≤ t → t ≤ t' →
     (decay score t' fibCache).1 = (decay score t fibCache).1)
  ∧ (t ≤ 0 → (decay score t fibCache).1 = score).
Proof.
  intros Hc.
  destruct (decay_value score t fibCache Hc) as [-> _].
  destruct (decay_value score t' fibCache Hc) as [-> _].
  split_and!; [| | | |by intros Ht; unfold decay_spec; rewrite decide_True].
  - intros Hs. split; [|by apply decay_spec_le].
    destruct (decide (t ≤ 0)) as [Ht|Ht].
    + unfold decay_spec. by rewrite decide_True.
    + apply decay_spec_floor. lia.
  - intros Ht. apply decay_spec_floor. lia.
  - apply decay_spec_mono.
  - intros Ht Htt'. unfold decay_spec. rewrite !decide_False by lia.
    unfold fib. by rewrite !Z.min_r by lia.
Qed.

Lemma decay_bounds_witness :
  cache_ok ∅
  ∧ ((1 # 100 <= (decay (1 # 2) 3 ∅).1)%Q
     ∧ ((decay (1 # 2) 3 ∅).1 <= 1 # 2)%Q)
  ∧ ((decay (1 # 2) 3 ∅).1 <= (decay (1 # 2) 7 ∅).1)%Q.
Proof.
  pose proof (decay_bounds (1 # 2) 3 7 ∅ cache_ok_empty)
    as (H1 & _ & H3 & _ & _).
  split; [apply cache_ok_empty|]. split.
  - apply H1. vm_compute. discriminate.
  - apply H3; lia.
Defined.

(** ** [recall]: the early exit *)

Lemma recall_early_exit memory currentTurn srg c :
  (length memory ≤ 15)%nat →
  recall memory currentTurn srg c
  = ({| memories := []; axioms := [] |}, srg, c).
Proof.
  intros Hlen. unfold recall, STM_CAPACITY.
  destruct (Z.leb_spec (Z.of_nat (length memory)) 15); [done|lia].
Qed.

(** C5.  On a log of at most 15 atoms [recall] returns
    [{memories: [], axioms: []}]; it is a plain result, and neither the
    graph service nor the Fibonacci cache is touched. *)
Theorem recall_short_log (memory : list MemoryAtom) (currentTurn : Z)
    (srg : SrgService) (fibCache : gmap Z Z) :
  (length memory ≤ 15)%nat →
  recall memory currentTurn srg fibCache
  = ({| memories := []; axioms := [] |}, srg, fibCache).
Proof.
  intros Hlen. unfold recall.
  destruct (Z.leb_spec (Z.of_nat (length memory)) STM_CAPACITY) as [_|Hgt];
    [done|].
  unfold STM_CAPACITY in Hgt. lia.
Qed.

Lemma recall_short_log_witness :
  recall [] 7 (mkSrg [] false DbMissing) ∅
  = ({| memories := []; axioms := [] |}, mkSrg [] false DbMissing, ∅).
Proof. apply (recall_short_log [] 7 (mkSrg [] false DbMissing) ∅). simpl. lia. Defined.

(** ** Arrays: [slice], [sort], [find], [map] *)

Section js_array_facts.
Context {A : Type}.
Implicit Types (l : list A) (x y : A).

Lemma slice_first l (k : Z) : 0 ≤ k → slice l 0 (Some k) = take (Z.to_nat k) l.
Proof.
  intros Hk. unfold slice, slice_index.
  destruct (Z.ltb_spec k 0) as [?|_]; [lia|]. simpl.
  replace (Z.to_nat (0 `min` Z.of_nat (length l))) with 0%nat by lia.
  rewrite Nat.sub_0_r, drop_0.
  destruct (decide (k ≤ Z.of_nat (length l))) as [Hle|Hgt].
  - by rewrite Z.min_l.
  - rewrite Z.min_r, Nat2Z.id by lia. by rewrite !take_ge by lia.
Qed.

Lemma slice_first_length l (k : Z) :
  0 ≤ k → (length (slice l 0 (Some k)) ≤ Z.to_nat k)%nat.
Proof. intros Hk. rewrite slice_first, length_take by done. lia. Qed.


Lemma slice_but_last l (n : nat) :
  slice l 0 (Some (- Z.of_nat (S n))) = take (length l - S n) l.
Proof.
  unfold slice, slice_index.
  destruct (Z.ltb_spec (- Z.of_nat (S n)) 0) as [_|?]; [|lia]. simpl.
  replace (Z.to_nat (0 `min` Z.of_nat (length l))) with 0%nat by lia.
  simpl. f_equal. lia.
Qed.

Lemma sort_insert_perm (after : A → A → bool) x l :
  sort_insert after x l ≡ₚ x :: l.
Proof.
  induction l as [|y l IH]; simpl; [done|].
  destruct (after x y); [|done].
  rewrite IH. apply Permutation_swap.
Qed.

Lemma sort_perm (after : A → A → bool) l : sort after l ≡ₚ l.
Proof.
  induction l as [|x l IH]; simpl; [done|].
  by rewrite sort_insert_perm, IH.
Qed.

Lemma find_Some (p : A → bool) l x : find p l = Some x → x ∈ l ∧ p x = true.
Proof.
  induction l as [|y l IH]; simpl; [done|].
  destruct (p y) eqn:Hy.
  - intros [= ->]. split; [left|done].
  - intros [??]%IH. split; [by right|done].
Qed.

Lemma find_is_Some (p : A → bool) l x :
  x ∈ l → p x = true → is_Some (find p l).
Proof.
  induction 1 as [x l|x y l _ IH]; simpl; intros Hp.
  - by rewrite Hp.
  - destruct (p y); [done|by apply IH].
Qed.

(** A relation between argument and result that every call of the callback
    establishes holds position by position. *)
Lemma map_st_Forall2 {S B} (f : A → S → B * S) (R : A → B → Prop) l s :
  (∀ x s', x ∈ l → R x (f x s').1) → Forall2 R l (map_st f l s).1.
Proof.
  revert s. induction l as [|x l IH]; intros s Hf; simpl; [constructor|].
  pose proof (Hf x s ltac:(left)) as Hx.
  destruct (f x s) as [y s1].
  specialize (IH s1 (λ x' s' Hin, Hf x' s' ltac:(by right))).
  destruct (map_st f l s1) as [ys s2]. simpl in *. by constructor.
Qed.

(** With an invariant of the state under which the callback computes a
    function of its argument, the whole [map] computes [g <$> l]. *)
Lemma map_st_fmap {S B} (f : A → S → B * S) (g : A → B) (I : S → Prop) l s :
  (∀ x s', I s' → (f x s').1 = g x ∧ I (f x s').2) →
  I s → (map_st f l s).1 = g <$> l ∧ I (map_st f l s).2.
Proof.
  intros Hf. revert s. induction l as [|x l IH]; intros s Hs; simpl; [done|].
  destruct (Hf x s Hs) as [Hx Hs1].
  destruct (f x s) as [y s1]. simpl in *.
  destruct (IH s1 Hs1) as [Hl Hs2].
  destruct (map_st f l s1) as [ys s2]. simpl in *. by subst.
Qed.
End js_array_facts.

(** ** [recall]: partition, scoring copies, selection *)


Lemma ltmOf_take memory : ltmOf memory = take (length memory - 15) memory.
Proof. apply (slice_but_last memory 14). Qed.

Lemma ltmOf_lookup memory i a :
  ltmOf memory !! i = Some a ↔
  memory !! i = Some a ∧ (i + 15 < length memory)%nat.
Proof.
  rewrite ltmOf_take, lookup_take_Some.
  split; intros [H1 H2]; (split; [done|]); apply lookup_lt_Some in H1; lia.
Qed.

Lemma decayAtom_copy currentTurn a c :
  ∃ q, (decayAtom currentTurn a c).1 = with_activationScore a q.
Proof.
  unfold decayAtom.
  destruct (decay _ _ c) as [q c']. by exists q.
Qed.

Lemma decayAtom_value currentTurn a c :
  cache_ok c →
  (decayAtom currentTurn a c).1 = decayedCopy currentTurn a
  ∧ cache_ok (decayAtom currentTurn a c).2.
Proof.
  intros Hc. unfold decayAtom, decayedCopy, decayedScoreOf, turnsOldOf.
  destruct (decay_value (default 1%Q (activationScore a))
              (currentTurn - default 0 (lastActivatedTurn a)) c Hc) as [Hv Hc'].
  destruct (decay _ _ c) as [q c']. simpl in *. by subst q.
Qed.

Lemma decayedLtmOf_copies memory currentTurn c :
  Forall2 (λ a d, ∃ q, d = with_activationScore a q)
    (ltmOf memory) (decayedLtmOf memory currentTurn c).
Proof.
  apply map_st_Forall2. intros a c' _. apply decayAtom_copy.
Qed.

Lemma decayedLtmOf_value memory currentTurn c :
  cache_ok c →
  decayedLtmOf memory currentTurn c = decayedCopy currentTurn <$> ltmOf memory.
Proof.
  intros Hc. unfold decayedLtmOf.
  by destruct (map_st_fmap (decayAtom currentTurn) (decayedCopy currentTurn)
                 cache_ok (ltmOf memory) c
                 (decayAtom_value currentTurn) Hc) as [-> _].
Qed.

(** [recall] keeps the cache sound. *)
Lemma recall_cache_ok memory currentTurn srg c :
  cache_ok c → cache_ok (recall memory currentTurn srg c).2.
Proof.
  intros Hc. unfold recall.
  destruct (Z.of_nat (length memory) <=? STM_CAPACITY); [done|]. simpl.
  by destruct (map_st_fmap (decayAtom currentTurn) (decayedCopy currentTurn)
                 cache_ok (ltmOf memory) c
                 (decayAtom_value currentTurn) Hc) as [_ ?].
Qed.

Lemma recall_long memory currentTurn srg c :
  (15 < length memory)%nat →
  (recall memory currentTurn srg c).1.1
  = {| memories := selectTop LTM_RECALL_K (ltmOf memory)
                     (scoredMemoriesOf memory currentTurn srg c);
       axioms := selectTop AXIOM_RECALL_K (ltmOf memory)
                   (scoredAxiomsOf memory currentTurn c) |}.
Proof.
  intros Hlen. unfold recall, STM_CAPACITY.
  destruct (Z.leb_spec (Z.of_nat (length memory)) 15); [lia|done].
Qed.

Lemma recall_long_state memory currentTurn srg c :
  (15 < length memory)%nat →
  (recall memory currentTurn srg c).1.2
  = (getFollowUpConcepts (stmOf memory) 10 srg).2
  ∧ (recall memory currentTurn srg c).2
    = (map_st (decayAtom currentTurn) (ltmOf memory) c).2.
Proof.
  intros Hlen. unfold recall, STM_CAPACITY.
  destruct (Z.leb_spec (Z.of_nat (length memory)) 15); [lia|done].
Qed.

Lemma Qgtb_0 (q : Q) : Qgtb q 0 = true ↔ (0 < q)%Q.
Proof.
  unfold Qgtb. rewrite negb_true_iff, <- not_true_iff_false, Qle_bool_iff.
  split; [apply Qnot_le_lt|apply Qlt_not_le].
Qed.

Lemma selectTop_length k ltm scored :
  0 ≤ k → (length (selectTop k ltm scored) ≤ Z.to_nat k)%nat.
Proof.
  intros Hk. unfold selectTop. rewrite length_fmap. by apply slice_first_length.
Qed.

Lemma selectTop_elem k ltm scored x :
  0 ≤ k → x ∈ selectTop k ltm scored →
  ∃ item, item ∈ scored ∧ (0 < score item)%Q
    ∧ x = find (λ o, bool_decide (uuid o = uuid (atom item))) ltm.
Proof.
  intros Hk. unfold selectTop. rewrite slice_first by done.
  intros (item & -> & Hitem)%list_elem_of_fmap.
  apply elem_of_take in Hitem as (i & Hitem & _).
  apply list_elem_of_lookup_2 in Hitem.
  rewrite sort_perm in Hitem.
  apply list_elem_of_filter in Hitem as [Hpos Hitem].
  exists item. by rewrite <- Qgtb_0.
Qed.

Lemma atom_scoreMemory E F d : atom (scoreMemory E F d) = d.
Proof. unfold scoreMemory. by destruct (Qeq_bool _ _). Qed.

Lemma atom_scoreAxiom stmConcepts d : atom (scoreAxiom stmConcepts d) = d.
Proof. done. Qed.

(** Every scored item is the score of the scoring copy of an atom of the
    archive, of the category of its pool. *)
Lemma scoredMemoriesOf_elem memory currentTurn srg c item :
  item ∈ scoredMemoriesOf memory currentTurn srg c →
  ∃ a q, a ∈ ltmOf memory ∧ type a ≠ axiom
    ∧ with_activationScore a q ∈ decayedLtmOf memory currentTurn c
    ∧ item = scoreMemory (expandedConceptsOf memory srg)
               (followUpConceptsOf memory srg) (with_activationScore a q).
Proof.
  unfold scoredMemoriesOf.
  intros (d & -> & [Hty Hd]%list_elem_of_filter)%list_elem_of_fmap.
  pose proof (decayedLtmOf_copies memory currentTurn c) as Hcopies.
  apply list_elem_of_lookup in Hd as [i Hi].
  destruct (Forall2_lookup_r _ _ _ _ _ Hcopies Hi) as (a & Ha & q & ->).
  exists a, q. split_and!; [by eapply list_elem_of_lookup_2|done| |done].
  by eapply list_elem_of_lookup_2.
Qed.

Lemma scoredAxiomsOf_elem memory currentTurn c item :
  item ∈ scoredAxiomsOf memory currentTurn c →
  ∃ a q, a ∈ ltmOf memory ∧ type a = axiom
    ∧ with_activationScore a q ∈ decayedLtmOf memory currentTurn c
    ∧ item = scoreAxiom (stmConceptsOf (stmOf memory))
               (with_activationScore a q).
Proof.
  unfold scoredAxiomsOf.
  intros (d & -> & [Hty Hd]%list_elem_of_filter)%list_elem_of_fmap.
  pose proof (decayedLtmOf_copies memory currentTurn c) as Hcopies.
  apply list_elem_of_lookup in Hd as [i Hi].
  destruct (Forall2_lookup_r _ _ _ _ _ Hcopies Hi) as (a & Ha & q & ->).
  exists a, q. split_and!; [by eapply list_elem_of_lookup_2|done| |done].
  by eapply list_elem_of_lookup_2.
Qed.

(** The look-up by uuid finds an atom of the archive, and the very atom
    when uuids are unique. *)
Lemma find_uuid_Some (ltm : list MemoryAtom) a :
  a ∈ ltm →
  ∃ a', find (λ o, bool_decide (uuid o = uuid a)) ltm = Some a'
    ∧ a' ∈ ltm ∧ uuid a' = uuid a.
Proof.
  intros Ha.
  destruct (find_is_Some (λ o, bool_decide (uuid o = uuid a)) ltm a Ha)
    as [a' Ha']; [by apply bool_decide_eq_true|].
  exists a'. split; [done|].
  apply find_Some in Ha' as [? ?%bool_decide_eq_true]. done.
Qed.

Lemma uuid_inj_NoDup (l : list MemoryAtom) a a' :
  NoDup (uuid <$> l) → a ∈ l → a' ∈ l → uuid a' = uuid a → a' = a.
Proof.
  intros Hnd [i Hi]%list_elem_of_lookup [j Hj]%list_elem_of_lookup Hu.
  assert (i = j) as ->.
  { eapply NoDup_lookup; [exact Hnd|..].
    - by rewrite list_lookup_fmap, Hi.
    - by rewrite list_lookup_fmap, Hj, <- Hu. }
  congruence.
Qed.

Lemma find_uuid_unique (ltm : list MemoryAtom) a :
  NoDup (uuid <$> ltm) → a ∈ ltm →
  find (λ o, bool_decide (uuid o = uuid a)) ltm = Some a.
Proof.
  intros Hnd Ha. destruct (find_uuid_Some ltm a Ha) as (a' & -> & Ha' & Hu).
  f_equal. by eapply uuid_inj_NoDup.
Qed.

Lemma NoDup_uuid_ltmOf memory :
  NoDup (uuid <$> memory) → NoDup (uuid <$> ltmOf memory).
Proof.
  rewrite ltmOf_take, fmap_take. intros Hnd.
  exact (sublist_NoDup _ _ Hnd (sublist_take _ _)).
Qed.

(** What [recall] returns, in either pool, is found in the archive. *)
Lemma recall_returns_ltm memory currentTurn srg c x :
  x ∈ memories (recall memory currentTurn srg c).1.1
  ∨ x ∈ axioms (recall memory currentTurn srg c).1.1 →
  ∃ a, x = Some a ∧ a ∈ ltmOf memory.
Proof.
  destruct (decide (length memory ≤ 15)%nat) as [Hshort|Hlong].
  { rewrite recall_early_exit by done. simpl.
    intros [H|H]; by apply elem_of_nil in H. }
  rewrite recall_long by lia. simpl. intros [Hx|Hx].
  - apply selectTop_elem in Hx as (item & Hitem & _ & ->); [|done].
    apply scoredMemoriesOf_elem in Hitem as (a & q & Ha & _ & _ & ->).
    rewrite atom_scoreMemory.
    destruct (find_uuid_Some (ltmOf memory) a Ha) as (a' & Hf & Ha' & _).
    exists a'. split; [exact Hf|done].
  - apply selectTop_elem in Hx as (item & Hitem & _ & ->); [|done].
    apply scoredAxiomsOf_elem in Hitem as (a & q & Ha & _ & _ & ->).
    rewrite atom_scoreAxiom.
    destruct (find_uuid_Some (ltmOf memory) a Ha) as (a' & Hf & Ha' & _).
    exists a'. split; [exact Hf|done].
Qed.

(** C6.  [recall] returns at most 5 memories and at most 3 axioms, and each
    returned atom is an atom of the log at a position before the last 15;
    when the uuids of the log are pairwise distinct, it is at none of the
    last 15 positions. *)
Theorem recall_bounded (memory : list MemoryAtom) (currentTurn : Z)
    (srg : SrgService) (fibCache : gmap Z Z) :
  let r := (recall memory currentTurn srg fibCache).1.1 in
  (length (memories r) ≤ 5)%nat
  ∧ (length (axioms r) ≤ 3)%nat
  ∧ ∀ x, x ∈ memories r ∨ x ∈ axioms r →
      ∃ a i, x = Some a ∧ memory !! i = Some a
        ∧ (i + 15 < length memory)%nat
        ∧ (NoDup (uuid <$> memory) →
           ∀ j, (length memory ≤ j + 15)%nat → memory !! j ≠ Some a).
Proof.
  intros r. split_and!.
  - subst r. destruct (decide (length memory ≤ 15)%nat) as [Hshort|Hlong].
    + rewrite recall_early_exit by done. simpl. lia.
    + rewrite recall_long by lia. simpl.
      apply (selectTop_length 5). lia.
  - subst r. destruct (decide (length memory ≤ 15)%nat) as [Hshort|Hlong].
    + rewrite recall_early_exit by done. simpl. lia.
    + rewrite recall_long by lia. simpl.
      apply (selectTop_length 3). lia.
  - intros x Hx.
    apply recall_returns_ltm in Hx as (a & -> & [i Hi]%list_elem_of_lookup).
    apply ltmOf_lookup in Hi as [Hi Hlt].
    exists a, i. split_and!; [done..|].
    intros Hnd j Hj Hmj.
    assert (i = j) as <-; [|lia].
    eapply NoDup_lookup; [exact Hnd|..]; by rewrite list_lookup_fmap, ?Hi, ?Hmj.
Qed.

(** ** [recall]: resonance and scores *)


Lemma filter_none {A} (P : A → Prop) `{!∀ x, Decision (P x)} (l : list A) :
  (∀ x, x ∈ l → ¬ P x) → filter P l = [].
Proof.
  induction l as [|x l IH]; intros Hl; [done|].
  rewrite filter_cons, decide_False by (apply Hl; left).
  apply IH. intros y Hy. apply Hl. by right.
Qed.



Lemma sharedWith_nil (X : gset string) : sharedWith [] X = 0%nat.
Proof. done. Qed.




Lemma axiomResonance_copy stmConcepts a q :
  axiomResonance stmConcepts (with_activationScore a q)
  = axiomResonance stmConcepts a.
Proof. done. Qed.



(** An axiom that shares no concept with the working set has resonance 0. *)
Lemma axiomResonance_disjoint (stmConcepts : list string) a :
  (∀ c, c ∈ conceptsOf a → c ∉ stmConcepts) →
  (axiomResonance stmConcepts a == 0)%Q.
Proof.
  unfold axiomResonance, conceptsOf. intros Hdisj.
  destruct (concepts a) as [cs|]; simpl in *; [|reflexivity].
  destruct (_ && _); [|reflexivity].
  rewrite filter_none by done. reflexivity.
Qed.



Lemma scoreAxiom_score stmConcepts d :
  score (scoreAxiom stmConcepts d)
  = (axiomResonance stmConcepts d * default 1 (activationScore d))%Q.
Proof. done. Qed.


(** With a sound cache the scoring copies are [decayedCopy] of the atoms of
    the archive, so every scored item is the score of such a copy. *)
Lemma scoredMemoriesOf_elem_ok memory currentTurn srg c item :
  cache_ok c →
  item ∈ scoredMemoriesOf memory currentTurn srg c ↔
  ∃ a, a ∈ ltmOf memory ∧ type a ≠ axiom
    ∧ item = scoreMemory (expandedConceptsOf memory srg)
               (followUpConceptsOf memory srg) (decayedCopy currentTurn a).
Proof.
  intros Hc. unfold scoredMemoriesOf.
  rewrite decayedLtmOf_value by done.
  rewrite list_elem_of_fmap. split.
  - intros (d & -> & [Hty (a & -> & Ha)%list_elem_of_fmap]%list_elem_of_filter).
    by exists a.
  - intros (a & Ha & Hty & ->). eexists; split; [done|].
    apply list_elem_of_filter. split; [done|].
    apply list_elem_of_fmap. by exists a.
Qed.

Lemma scoredAxiomsOf_elem_ok memory currentTurn c item :
  cache_ok c →
  item ∈ scoredAxiomsOf memory currentTurn c ↔
  ∃ a, a ∈ ltmOf memory ∧ type a = axiom
    ∧ item = scoreAxiom (stmConceptsOf (stmOf memory))
               (decayedCopy currentTurn a).
Proof.
  intros Hc. unfold scoredAxiomsOf.
  rewrite decayedLtmOf_value by done.
  rewrite list_elem_of_fmap. split.
  - intros (d & -> & [Hty (a & -> & Ha)%list_elem_of_fmap]%list_elem_of_filter).
    by exists a.
  - intros (a & Ha & Hty & ->). eexists; split; [done|].
    apply list_elem_of_filter. split; [done|].
    apply list_elem_of_fmap. by exists a.
Qed.

(** With unique uuids a returned atom is an atom of its pool whose own item
    has a positive score. *)
Lemma recall_memories_elem memory currentTurn srg c x :
  cache_ok c → NoDup (uuid <$> memory) →
  x ∈ memories (recall memory currentTurn srg c).1.1 →
  ∃ a, x = Some a ∧ a ∈ ltmOf memory ∧ type a ≠ axiom
    ∧ (0 < score (scoreMemory (expandedConceptsOf memory srg)
                    (followUpConceptsOf memory srg)
                    (decayedCopy currentTurn a)))%Q.
Proof.
  intros Hc Hnd.
  destruct (decide (length memory ≤ 15)%nat) as [Hshort|Hlong].
  { rewrite recall_early_exit by done. simpl. by intros ?%elem_of_nil. }
  rewrite recall_long by lia. simpl. intros Hx.
  apply selectTop_elem in Hx as (item & Hitem & Hpos & ->); [|done].
  apply scoredMemoriesOf_elem_ok in Hitem as (a & Ha & Hty & ->); [|done].
  exists a. rewrite atom_scoreMemory.
  split_and!; [|done..].
  apply (find_uuid_unique (ltmOf memory) a); [|done].
  by apply NoDup_uuid_ltmOf.
Qed.

Lemma recall_axioms_elem memory currentTurn srg c x :
  cache_ok c → NoDup (uuid <$> memory) →
  x ∈ axioms (recall memory currentTurn srg c).1.1 →
  ∃ a, x = Some a ∧ a ∈ ltmOf memory ∧ type a = axiom
    ∧ (0 < score (scoreAxiom (stmConceptsOf (stmOf memory))
                    (decayedCopy currentTurn a)))%Q.
Proof.
  intros Hc Hnd.
  destruct (decide (length memory ≤ 15)%nat) as [Hshort|Hlong].
  { rewrite recall_early_exit by done. simpl. by intros ?%elem_of_nil. }
  rewrite recall_long by lia. simpl. intros Hx.
  apply selectTop_elem in Hx as (item & Hitem & Hpos & ->); [|done].
  apply scoredAxiomsOf_elem_ok in Hitem as (a & Ha & Hty & ->); [|done].
  exists a. rewrite atom_scoreAxiom.
  split_and!; [|done..].
  apply (find_uuid_unique (ltmOf memory) a); [|done].
  by apply NoDup_uuid_ltmOf.
Qed.

Lemma example_log_uuids : NoDup (uuid <$> example_log).
Proof. by apply (bool_decide_unpack _). Qed.


(** C10.  With unique uuids, every atom [recall] returns, in either list,
    is an atom of that pool whose final score is strictly positive.  So an
    axiom of the archive that shares no concept with the working set is not
    returned. *)
Theorem recall_positive_scores (memory : list MemoryAtom) (currentTurn : Z)
    (srg : SrgService) (fibCache : gmap Z Z) :
  cache_ok fibCache →
  NoDup (uuid <$> memory) →
  let r := (recall memory currentTurn srg fibCache).1.1 in
  let stmConcepts := stmConceptsOf (stmOf memory) in
  let F := followUpConceptsOf memory srg in
  let E := expandedConceptsOf memory srg in
  (∀ x, x ∈ memories r →
     ∃ a, x = Some a ∧ a ∈ ltmOf memory ∧ type a ≠ axiom
       ∧ (0 < score (scoreMemory E F (decayedCopy currentTurn a)))%Q)
  ∧ (∀ x, x ∈ axioms r →
       ∃ a, x = Some a ∧ a ∈ ltmOf memory ∧ type a = axiom
         ∧ (0 < score (scoreAxiom stmConcepts (decayedCopy currentTurn a)))%Q)
  ∧ (∀ a, a ∈ ltmOf memory → type a = axiom →
       (∀ c, c ∈ conceptsOf a → c ∉ stmConcepts) →
       (score (scoreAxiom stmConcepts (decayedCopy currentTurn a)) == 0)%Q
       ∧ (Some a ∉ axioms r) ∧ (Some a ∉ memories r)).
Proof.
  intros Hc Hnd r stmConcepts F E. split_and!.
  - intros x Hx. by apply (recall_memories_elem memory currentTurn srg fibCache).
  - intros x Hx. by apply (recall_axioms_elem memory currentTurn srg fibCache).
  - intros a Ha Hty Hdisj.
    assert (score (scoreAxiom stmConcepts (decayedCopy currentTurn a)) == 0)%Q
      as Hz.
    { rewrite scoreAxiom_score. unfold decayedCopy.
      rewrite axiomResonance_copy, axiomResonance_disjoint by done. ring. }
    split_and!; [done| |].
    + intros Hin.
      apply recall_axioms_elem in Hin as (a' & [= <-] & _ & _ & Hpos);
        [|done..].
      fold stmConcepts in Hpos. rewrite Hz in Hpos. by apply Qlt_irrefl in Hpos.
    + intros Hin.
      by apply recall_memories_elem in Hin as (a' & [= <-] & _ & Hna & _).
Qed.

Lemma recall_positive_scores_witness :
  Some ltm_axiom_far ∉ axioms (recall example_log 20 example_srg ∅).1.1.
Proof.
  pose proof (recall_positive_scores example_log 20 example_srg ∅
                cache_ok_empty example_log_uuids) as (_ & _ & H).
  apply (H ltm_axiom_far).
  - by apply (bool_decide_unpack _).
  - reflexivity.
  - intros c Hc. change (c ∈ ["zebra"]) in Hc.
    apply list_elem_of_singleton in Hc as ->.
    by apply (bool_decide_unpack _).
Defined.

Lemma recall_bounded_witness :
  (length (memories (recall example_log 20 example_srg ∅).1.1) ≤ 5)%nat
  ∧ (length (axioms (recall example_log 20 example_srg ∅).1.1) ≤ 3)%nat.
Proof.
  pose proof (recall_bounded example_log 20 example_srg ∅) as (H5 & H3 & _).
  by split.
Defined.

(** ** [Map]: get, set, delete *)

Section js_map_facts.
Context {V : Type}.
Implicit Types (m : JsMap V) (k : string) (v : V).

Lemma map_get_set k k' v m :
  map_get k' (map_set k v m) = if decide (k = k') then Some v else map_get k' m.
Proof.
  induction m as [|[k0 v0] m IH]; simpl.
  - repeat case_decide; congruence.
  - destruct (decide (k0 = k)) as [->|Hk0]; simpl.
    + repeat case_decide; congruence.
    + rewrite IH. repeat case_decide; congruence.
Qed.

Lemma map_get_set_eq k v m : map_get k (map_set k v m) = Some v.
Proof. by rewrite map_get_set, decide_True. Qed.

Lemma map_get_set_ne k k' v m :
  k ≠ k' → map_get k' (map_set k v m) = map_get k' m.
Proof. intros. by rewrite map_get_set, decide_False. Qed.

Lemma map_has_get k m : map_has k m = false → map_get k m = None.
Proof. unfold map_has. by destruct (map_get k m). Qed.

Lemma map_get_NoDup k v m : NoDup m.*1 → (k, v) ∈ m → map_get k m = Some v.
Proof.
  induction m as [|[k0 v0] m IH]; csimpl.
  - by intros _ ?%elem_of_nil.
  - intros [Hk0 Hnd]%NoDup_cons [[= -> ->]|Hin]%elem_of_cons.
    + by rewrite decide_True.
    + rewrite decide_False; [by apply IH|].
      intros ->. apply Hk0. apply list_elem_of_fmap. by exists (k, v).
Qed.

(** The keys after a [set]: a new key is appended. *)
Lemma map_set_keys k v m :
  (map_set k v m).*1 = if decide (k ∈ m.*1) then m.*1 else m.*1 ++ [k].
Proof.
  induction m as [|[k0 v0] m IH]; csimpl.
  - destruct (decide (k ∈ [])) as [Hin|_]; [by apply elem_of_nil in Hin|done].
  - destruct (decide (k0 = k)) as [->|Hk0]; csimpl.
    + destruct (decide (k ∈ k :: m.*1)) as [_|Hn]; [done|].
      exfalso. apply Hn. left.
    + rewrite IH. destruct (decide (k ∈ m.*1)) as [Hin|Hin].
      * destruct (decide (k ∈ k0 :: m.*1)) as [_|Hn]; [done|].
        exfalso. apply Hn. by right.
      * destruct (decide (k ∈ k0 :: m.*1)) as [Hn|_]; [|done].
        apply elem_of_cons in Hn as [->|?]; done.
Qed.

Lemma map_delete_sublist k m : map_delete k m `sublist_of` m.
Proof.
  induction m as [|[k0 v0] m IH]; csimpl; [done|].
  case_decide; [by apply sublist_cons|by apply sublist_skip].
Qed.

Lemma map_delete_not_elem k m : NoDup m.*1 → k ∉ (map_delete k m).*1.
Proof.
  induction m as [|[k0 v0] m IH]; csimpl.
  - intros _. apply not_elem_of_nil.
  - intros [Hk0 Hnd]%NoDup_cons.
    destruct (decide (k0 = k)) as [->|Hne]; [done|]. csimpl.
    apply not_elem_of_cons. split; [done|by apply IH].
Qed.

Lemma map_delete_elem_ne k m e : e ∈ m → e.1 ≠ k → e ∈ map_delete k m.
Proof.
  induction m as [|[k0 v0] m IH]; csimpl; [done|].
  intros [->|Hin]%elem_of_cons Hne.
  - simpl in Hne. rewrite decide_False by done. left.
  - case_decide; [done|]. right. by apply IH.
Qed.
End js_map_facts.

(** ** [trainOnTransition] *)

Lemma occurrences_cons k x l :
  occurrences k (x :: l)
  = ((if decide (x = k) then 1 else 0) + occurrences k l)%nat.
Proof. unfold occurrences. rewrite filter_cons. by case_decide. Qed.

Lemma occurrences_0 k l : k ∉ l → occurrences k l = 0%nat.
Proof.
  intros Hk. unfold occurrences. rewrite filter_none; [done|].
  intros x Hx ->. done.
Qed.

Lemma occurrences_NoDup k l : NoDup l → k ∈ l → occurrences k l = 1%nat.
Proof.
  induction 1 as [|x l Hx Hnd IH]; [by intros ?%elem_of_nil|].
  rewrite occurrences_cons. intros [->|Hin]%elem_of_cons.
  - rewrite decide_True, occurrences_0 by done. done.
  - rewrite decide_False, IH by (done || by intros ->). done.
Qed.

Global Instance node_key_inj t : Inj (=) (=) (node_key t).
Proof.
  intros c1 c2 H. unfold node_key in H.
  by apply (inj (String.app _)), (inj (String.app _)) in H.
Qed.

Section training_facts.
Variable extractConcepts : string → list string.

(** What the inner loop does to one entry of [transitions]. *)
Lemma trainTargets_get targetType targetConcepts transitions k :
  default 0 (map_get k (trainTargets targetType targetConcepts transitions))
  = default 0 (map_get k transitions)
    + Z.of_nat (occurrences k (node_key targetType <$> targetConcepts)).
Proof.
  unfold trainTargets. revert transitions.
  induction targetConcepts as [|tc tcs IH]; intros transitions; csimpl.
  - unfold occurrences. simpl. lia.
  - rewrite IH, occurrences_cons, map_get_set.
    destruct (decide (node_key targetType tc = k)) as [->|Hne]; simpl; lia.
Qed.

(** What one round of the outer loop does to the weight of an edge. *)
Lemma trainSource_weight sourceType targetType targetConcepts g sConcept k1 k2 :
  weight (trainSource sourceType targetType targetConcepts g sConcept) k1 k2
  = weight g k1 k2
    + (if decide (node_key sourceType sConcept = k1)
       then Z.of_nat (occurrences k2 (node_key targetType <$> targetConcepts))
       else 0).
Proof.
  unfold trainSource, weight.
  set (sourceKey := node_key sourceType sConcept).
  set (g1 := if map_has sourceKey g then g else map_set sourceKey [] g).
  assert (default [] (map_get sourceKey g1) = default [] (map_get sourceKey g))
    as Hsame.
  { subst g1. destruct (map_has sourceKey g) eqn:Hhas; [done|].
    by rewrite map_get_set_eq, (map_has_get _ _ Hhas). }
  assert (∀ k, k ≠ sourceKey → map_get k g1 = map_get k g) as Hother.
  { intros k Hk. subst g1. destruct (map_has sourceKey g); [done|].
    by rewrite map_get_set_ne. }
  rewrite map_get_set. destruct (decide (sourceKey = k1)) as [<-|Hne].
  - simpl. rewrite trainTargets_get, Hsame.
    by destruct (map_get sourceKey g).
  - rewrite Hother by done. lia.
Qed.

Lemma train_weight sourceType targetType targetConcepts sourceConcepts g k1 k2 :
  weight (foldl (trainSource sourceType targetType targetConcepts) g
            sourceConcepts) k1 k2
  = weight g k1 k2
    + Z.of_nat (occurrences k1 (node_key sourceType <$> sourceConcepts))
      * Z.of_nat (occurrences k2 (node_key targetType <$> targetConcepts)).
Proof.
  revert g. induction sourceConcepts as [|sc scs IH]; intros g; csimpl.
  - unfold occurrences. simpl. lia.
  - rewrite IH, trainSource_weight, occurrences_cons.
    case_decide; lia.
Qed.

Lemma trainOnTransition_graph sourceAtom targetAtom s :
  graph (trainOnTransition extractConcepts sourceAtom targetAtom s)
  = match conceptsOrExtract extractConcepts sourceAtom,
          conceptsOrExtract extractConcepts targetAtom with
    | [], _ | _, [] => graph (ensureLoaded s)
    | sourceConcepts, targetConcepts =>
        foldl (trainSource (type sourceAtom) (type targetAtom) targetConcepts)
          (graph (ensureLoaded s)) sourceConcepts
    end.
Proof.
  unfold trainOnTransition.
  destruct (conceptsOrExtract _ sourceAtom) as [|sc scs];
    destruct (conceptsOrExtract _ targetAtom) as [|tc tcs]; done.
Qed.

(** C8.  If either atom has no concepts, [trainOnTransition] leaves the
    graph, and so every edge weight, as it is once loaded.  Otherwise each
    edge from a key [type:concept] of the source to a key [type:concept] of
    the target gains exactly 1 (the concepts of an atom being pairwise
    distinct) and every other edge keeps its weight.  In general an edge
    gains the product of the occurrences of its two keys. *)
Theorem trainOnTransition_edges (sourceAtom targetAtom : MemoryAtom)
    (s : SrgService) :
  let s0 := ensureLoaded s in
  let s' := trainOnTransition extractConcepts sourceAtom targetAtom s in
  let sourceConcepts := conceptsOrExtract extractConcepts sourceAtom in
  let targetConcepts := conceptsOrExtract extractConcepts targetAtom in
  let sourceKeys := node_key (type sourceAtom) <$> sourceConcepts in
  let targetKeys := node_key (type targetAtom) <$> targetConcepts in
  (isLoaded s = true → s0 = s)
  ∧ (sourceConcepts = [] ∨ targetConcepts = [] → s' = s0)
  ∧ (sourceConcepts = [] ∨ targetConcepts = [] →
     ∀ k1 k2, weight (graph s') k1 k2 = weight (graph s0) k1 k2)
  ∧ (∀ k1 k2,
       weight (graph s') k1 k2
       = weight (graph s0) k1 k2
         + Z.of_nat (occurrences k1 sourceKeys)
           * Z.of_nat (occurrences k2 targetKeys))
  ∧ (NoDup sourceConcepts → NoDup targetConcepts →
     ∀ sConcept tConcept,
       sConcept ∈ sourceConcepts → tConcept ∈ targetConcepts →
       weight (graph s') (node_key (type sourceAtom) sConcept)
         (node_key (type targetAtom) tConcept)
       = weight (graph s0) (node_key (type sourceAtom) sConcept)
           (node_key (type targetAtom) tConcept) + 1)
  ∧ (∀ k1 k2, k1 ∉ sourceKeys ∨ k2 ∉ targetKeys →
       weight (graph s') k1 k2 = weight (graph s0) k1 k2).
Proof.
  intros s0 s' sourceConcepts targetConcepts sourceKeys targetKeys.
  assert (∀ k1 k2,
            weight (graph s') k1 k2
            = weight (graph s0) k1 k2
              + Z.of_nat (occurrences k1 sourceKeys)
                * Z.of_nat (occurrences k2 targetKeys)) as Hgen.
  { intros k1 k2. subst s'. rewrite trainOnTransition_graph.
    fold sourceConcepts targetConcepts s0.
    subst sourceKeys targetKeys.
    destruct sourceConcepts as [|sc scs] eqn:Hs.
    { unfold occurrences. simpl. lia. }
    destruct targetConcepts as [|tc tcs] eqn:Ht.
    { unfold occurrences. simpl. lia. }
    apply train_weight. }
  assert (sourceConcepts = [] ∨ targetConcepts = [] → s' = s0) as Hnoop.
  { intros Hempty. subst s'. unfold trainOnTransition.
    fold sourceConcepts targetConcepts s0.
    destruct Hempty as [->| ->]; simpl; [done|].
    by rewrite orb_true_r. }
  split_and!.
  - intros Hl. subst s0. unfold ensureLoaded. by rewrite Hl.
  - done.
  - intros Hempty k1 k2. by rewrite Hnoop.
  - done.
  - intros Hs Ht sc tc Hsc Htc. rewrite Hgen.
    subst sourceKeys targetKeys.
    rewrite !occurrences_NoDup; [lia|..].
    + by apply (NoDup_fmap_2 _).
    + apply list_elem_of_fmap. by exists tc.
    + by apply (NoDup_fmap_2 _).
    + apply list_elem_of_fmap. by exists sc.
  - intros k1 k2 Hout. rewrite Hgen.
    destruct Hout as [H|H]; rewrite (occurrences_0 _ _ H); lia.
Qed.
End training_facts.

Lemma trainOnTransition_edges_witness :
  let s' := trainOnTransition (λ _, []) stm_query ltm_general example_srg in
  weight (graph s') "user_message:cat" "user_message:fish" = 1
  ∧ weight (graph s') "user_message:cat" "model_response:fish" = 1.
Proof.
  pose proof (trainOnTransition_edges (λ _, []) stm_query ltm_general
                example_srg) as (_ & _ & _ & _ & H1 & H0).
  split.
  - apply (H1 ltac:(by apply (bool_decide_unpack _))
              ltac:(by apply (bool_decide_unpack _)) "cat" "fish");
      by apply (bool_decide_unpack _).
  - rewrite (H0 "user_message:cat" "model_response:fish"); [done|].
    right. by apply (bool_decide_unpack _).
Defined.

(** ** Order in lists *)

Section order_facts.
Context {A : Type}.
Implicit Types (l : list A) (x y : A).

Lemma slice_sublist l (start : Z) (end_ : option Z) :
  slice l start end_ `sublist_of` l.
Proof.
  unfold slice. etrans; [apply sublist_take|apply sublist_drop].
Qed.

Lemma sublist_filter_mono (P : A → Prop) `{!∀ x, Decision (P x)} l1 l2 :
  l1 `sublist_of` l2 → filter P l1 `sublist_of` filter P l2.
Proof.
  induction 1 as [|x l1 l2 _ IH|x l1 l2 _ IH]; [done|..];
    rewrite ?filter_cons; case_decide; try done.
  - by apply sublist_skip.
  - by apply sublist_cons.
Qed.

(** Two positions of a list, in order, make a sublist of two elements. *)
Lemma lookup_pair_sublist l i j x y :
  (i < j)%nat → l !! i = Some x → l !! j = Some y → [x; y] `sublist_of` l.
Proof.
  intros Hij Hi Hj.
  rewrite <- (take_drop_middle l i x Hi).
  apply sublist_inserts_l, sublist_skip, singleton_sublist_l.
  apply list_elem_of_lookup. exists (j - S i)%nat.
  rewrite lookup_drop, <- Hj. f_equal. lia.
Qed.

Lemma StronglySorted_sublist (R : relation A) l x y :
  StronglySorted R l → [x; y] `sublist_of` l → R x y.
Proof.
  induction 1 as [|z l Hl IH Hz]; [by intros ?%sublist_nil_r|].
  intros [Hsub|(l' & [= <- <-] & Hy)]%sublist_cons_r; [by apply IH|].
  apply singleton_sublist_l in Hy.
  by apply (proj1 (Forall_forall _ _) Hz).
Qed.

(** Sorting on an integer key, largest first. *)
Variable key : A → Z.
Let after (a b : A) : bool := 0 <? key b - key a.

Lemma sort_insert_sorted x l :
  StronglySorted (λ a b, key b ≤ key a) l →
  StronglySorted (λ a b, key b ≤ key a) (sort_insert after x l).
Proof.
  induction 1 as [|y l Hl IH Hy]; simpl.
  - repeat constructor.
  - unfold after at 1. destruct (Z.ltb_spec 0 (key y - key x)) as [Hlt|Hge].
    + constructor; [done|].
      apply Forall_forall. intros z Hz.
      rewrite (sort_insert_perm after x l) in Hz.
      apply elem_of_cons in Hz as [->|Hz]; [lia|].
      by apply (proj1 (Forall_forall _ _) Hy).
    + constructor; [by constructor|].
      constructor; [lia|].
      eapply Forall_impl; [exact Hy|]. simpl. intros z Hz. lia.
Qed.

Lemma sort_sorted l : StronglySorted (λ a b, key b ≤ key a) (sort after l).
Proof.
  induction l as [|x l IH]; simpl; [constructor|by apply sort_insert_sorted].
Qed.

(** Stability: among the elements of one key the order is kept. *)
Lemma sort_insert_stable (w : Z) x l :
  filter (λ a, key a = w) (sort_insert after x l)
  = filter (λ a, key a = w) (x :: l).
Proof.
  induction l as [|y l IH]; simpl; [done|].
  unfold after at 1. destruct (Z.ltb_spec 0 (key y - key x)) as [Hlt|Hge];
    [|done].
  rewrite (filter_cons _ y), IH, !filter_cons.
  repeat case_decide; try done; lia.
Qed.

Lemma sort_stable (w : Z) l :
  filter (λ a, key a = w) (sort after l) = filter (λ a, key a = w) l.
Proof.
  induction l as [|x l IH]; simpl; [done|].
  by rewrite sort_insert_stable, !filter_cons, IH.
Qed.

Lemma sort_stable_pair l x y :
  key x = key y → [x; y] `sublist_of` sort after l → [x; y] `sublist_of` l.
Proof.
  intros Hxy Hsub.
  apply (sublist_filter_mono (λ a, key a = key x)) in Hsub.
  rewrite sort_stable, !filter_cons, filter_nil in Hsub.
  rewrite !decide_True in Hsub by done.
  etrans; [exact Hsub|apply sublist_filter].
Qed.
End order_facts.

Lemma first_occurrences_elem c l : c ∈ first_occurrences l ↔ c ∈ l.
Proof.
  induction l as [|x l IH]; simpl; [done|].
  rewrite !elem_of_cons, list_elem_of_filter, IH.
  destruct (decide (c = x)); tauto.
Qed.

Lemma first_occurrences_NoDup l : NoDup (first_occurrences l).
Proof.
  induction l as [|x l IH]; simpl; [constructor|].
  constructor; [|by apply NoDup_filter].
  rewrite list_elem_of_filter. by intros [? _].
Qed.

Lemma first_occurrences_order l c c' :
  [c; c'] `sublist_of` first_occurrences l →
  (first_index c l < first_index c' l)%nat.
Proof.
  induction l as [|x l IH]; simpl; [by intros ?%sublist_nil_r|].
  intros [Hsub|(l' & [= <- <-] & Hc')]%sublist_cons_r.
  - assert (c ∈ filter (λ y, y ≠ x) (first_occurrences l)) as Hc.
    { eapply elem_of_sublist; [|exact Hsub]. left. }
    assert (c' ∈ filter (λ y, y ≠ x) (first_occurrences l)) as Hc'.
    { eapply elem_of_sublist; [|exact Hsub]. right. left. }
    apply list_elem_of_filter in Hc as [Hc _].
    apply list_elem_of_filter in Hc' as [Hc' _].
    rewrite !decide_False by done.
    apply Nat.succ_lt_mono in IH; [done|].
    etrans; [exact Hsub|apply sublist_filter].
  - apply singleton_sublist_l, list_elem_of_filter in Hc' as [Hc' _].
    rewrite decide_True, decide_False by done. lia.
Qed.

(** ** [getFollowUpConcepts] *)

Lemma addTransitions_app m es1 es2 :
  addTransitions m (es1 ++ es2) = addTransitions (addTransitions m es1) es2.
Proof. apply foldl_app. Qed.

Lemma weightTo_cons c e es :
  weightTo c (e :: es)
  = (if decide (followUpConceptOf e.1 = c) then e.2 else 0) + weightTo c es.
Proof.
  unfold weightTo. rewrite filter_cons. case_decide; csimpl; lia.
Qed.

(** The value [associations] holds for a concept. *)
Lemma addTransitions_get m es c :
  default 0 (map_get c (addTransitions m es))
  = default 0 (map_get c m) + weightTo c es.
Proof.
  unfold addTransitions. revert m.
  induction es as [|e es IH]; intros m; csimpl.
  - unfold weightTo. simpl. lia.
  - rewrite IH, weightTo_cons, map_get_set.
    destruct (decide (followUpConceptOf e.1 = c)) as [->|Hne]; simpl; lia.
Qed.

(** The keys of [associations], in order: the old ones, then the new ones
    in the order they are first met. *)
Lemma addTransitions_keys (m : JsMap Z) es :
  (addTransitions m es).*1
  = m.*1 ++ filter (λ c, c ∉ m.*1)
              (first_occurrences ((λ e, followUpConceptOf e.1) <$> es)).
Proof.
  unfold addTransitions. revert m.
  induction es as [|e es IH]; intros m; csimpl.
  - by rewrite filter_nil, app_nil_r.
  - set (c := followUpConceptOf e.1). rewrite IH, map_set_keys, filter_cons.
    destruct (decide (c ∈ m.*1)) as [Hin|Hin].
    + rewrite decide_False by (by intros ?). f_equal.
      rewrite list_filter_filter. apply list_filter_iff.
      intros x. split; [|tauto]. intros Hx. split; [done|]. by intros ->.
    + rewrite decide_True by done. rewrite <- app_assoc. simpl. do 2 f_equal.
      rewrite list_filter_filter. apply list_filter_iff.
      intros x. rewrite not_elem_of_app, list_elem_of_singleton. tauto.
Qed.

Lemma filter_true {A} (P : A → Prop) `{!∀ x, Decision (P x)} (l : list A) :
  (∀ x, x ∈ l → P x) → filter P l = l.
Proof.
  induction l as [|x l IH]; intros Hl; [done|].
  rewrite filter_cons, decide_True by (apply Hl; left).
  f_equal. apply IH. intros y Hy. apply Hl. by right.
Qed.

Lemma addTransitions_nil_keys es :
  (addTransitions [] es).*1
  = first_occurrences ((λ e, followUpConceptOf e.1) <$> es).
Proof.
  rewrite addTransitions_keys. simpl. apply filter_true.
  intros x _. apply not_elem_of_nil.
Qed.

(** The two loops meet the edges of [edgesFrom] one after the other and
    collect the concepts of the source atoms. *)
Lemma followUpConcept_step_eq g t st c :
  followUpConcept_step g t st c
  = (addTransitions st.1 (default [] (map_get (node_key t c) g)),
     {[c]} ∪ st.2).
Proof.
  unfold followUpConcept_step.
  destruct (map_has (node_key t c) g) eqn:Hhas; [done|].
  by rewrite (map_has_get _ _ Hhas).
Qed.

Lemma followUpAtom_step_eq g st a :
  followUpAtom_step g st a
  = (addTransitions st.1
       (flat_map (λ k, default [] (map_get k g))
          (node_key (type a) <$> conceptsOf a)),
     list_to_set (conceptsOf a) ∪ st.2).
Proof.
  unfold followUpAtom_step. fold (conceptsOf a). revert st.
  induction (conceptsOf a) as [|c cs IH]; intros st; csimpl.
  - destruct st as [m o]. simpl. f_equal.
    by rewrite (left_id_L ∅ (∪)).
  - rewrite IH, followUpConcept_step_eq. simpl.
    rewrite addTransitions_app. f_equal.
    apply set_eq. intros x.
    rewrite !elem_of_union, elem_of_singleton. tauto.
Qed.

Lemma followUp_loops g st sourceAtoms :
  foldl (followUpAtom_step g) st sourceAtoms
  = (addTransitions st.1 (edgesFrom g sourceAtoms),
     list_to_set (originalConceptsOf sourceAtoms) ∪ st.2).
Proof.
  unfold edgesFrom, sourceKeysOf, originalConceptsOf. revert st.
  induction sourceAtoms as [|a atoms IH]; intros st; csimpl.
  - destruct st as [m o]. simpl. f_equal.
    by rewrite (left_id_L ∅ (∪)).
  - rewrite IH, followUpAtom_step_eq. simpl.
    rewrite flat_map_app, addTransitions_app. f_equal.
    rewrite list_to_set_app_L. apply set_eq. intros x.
    rewrite !elem_of_union. tauto.
Qed.

(** Deleting the original concepts. *)
Lemma delete_all_sublist (m : JsMap Z) (cs : list string) :
  foldl (λ m c, map_delete c m) m cs `sublist_of` m.
Proof.
  revert m. induction cs as [|c cs IH]; intros m; simpl; [done|].
  etrans; [apply IH|apply map_delete_sublist].
Qed.

Lemma delete_all_not_elem (m : JsMap Z) (cs : list string) c :
  NoDup m.*1 → c ∈ cs → c ∉ (foldl (λ m c, map_delete c m) m cs).*1.
Proof.
  revert m. induction cs as [|c0 cs IH]; intros m Hnd; simpl.
  - by intros ?%elem_of_nil.
  - assert (NoDup (map_delete c0 m).*1) as Hnd'.
    { eapply sublist_NoDup; [exact Hnd|].
      apply fmap_sublist, map_delete_sublist. }
    intros [->|Hin]%elem_of_cons; [|by apply IH].
    intros Hc0. apply (map_delete_not_elem c0 m Hnd).
    eapply elem_of_sublist; [exact Hc0|].
    apply fmap_sublist, delete_all_sublist.
Qed.

Lemma delete_all_elem (m : JsMap Z) (cs : list string) e :
  e ∈ m → e.1 ∉ cs → e ∈ foldl (λ m c, map_delete c m) m cs.
Proof.
  revert m. induction cs as [|c0 cs IH]; intros m Hin Hout; simpl; [done|].
  apply not_elem_of_cons in Hout as [Hne Hout].
  apply IH; [|done]. by apply map_delete_elem_ne.
Qed.

(** Keys are parsed back: the concept of a key [type:concept] is the text
    after the first colon, and no type name holds a colon. *)
Lemma slice_tail {A} (x : A) (l : list A) : slice (x :: l) 1 None = l.
Proof.
  unfold slice, slice_index. cbn [Z.ltb Z.compare length].
  replace (Z.to_nat (1 `min` Z.of_nat (S (length l)))) with 1%nat by lia.
  simpl. rewrite Nat.sub_0_r. by apply take_ge.
Qed.

Lemma split_colon_cons s : ∃ p ps, split_colon s = p :: ps.
Proof.
  induction s as [|a s (p & ps & IH)]; simpl; [by eexists _, _|].
  destruct (Ascii.eqb a ":"); [by eexists _, _|].
  rewrite IH. by eexists _, _.
Qed.

Lemma join_split_colon s : join_colon (split_colon s) = s.
Proof.
  induction s as [|a s IH]; simpl; [done|].
  destruct (Ascii.eqb_spec a ":") as [->|Hne].
  - destruct (split_colon_cons s) as (p & ps & Hs).
    rewrite Hs in IH |- *.
    change (join_colon ("" :: p :: ps))
      with ("" +:+ ":" +:+ join_colon (p :: ps)).
    by rewrite IH.
  - destruct (split_colon_cons s) as (p & ps & Hs).
    rewrite Hs in IH |- *. destruct ps as [|p' ps].
    + simpl in *. by subst.
    + change (join_colon (String a p :: p' :: ps))
        with (String a (p +:+ ":" +:+ join_colon (p' :: ps))).
      by rewrite <- IH.
Qed.

Lemma followUpConceptOf_node_key t c : followUpConceptOf (node_key t c) = c.
Proof.
  unfold followUpConceptOf, node_key.
  assert (split_colon (type_name t +:+ ":" +:+ c)
          = type_name t :: split_colon c) as ->.
  { by destruct t. }
  rewrite slice_tail. apply join_split_colon.
Qed.

(** The weight aggregated over the edges out of a list of keys does not
    depend on the order of the keys. *)
Lemma weightTo_app c es1 es2 :
  weightTo c (es1 ++ es2) = weightTo c es1 + weightTo c es2.
Proof.
  induction es1 as [|e es1 IH]; [done|].
  rewrite <- app_comm_cons, !weightTo_cons, IH. lia.
Qed.

Lemma weightTo_keys_perm (g : ConceptGraph) c (ks1 ks2 : list string) :
  ks1 ≡ₚ ks2 →
  weightTo c (flat_map (λ k, default [] (map_get k g)) ks1)
  = weightTo c (flat_map (λ k, default [] (map_get k g)) ks2).
Proof.
  induction 1 as [|k ks1 ks2 _ IH|k k' ks|ks1 ks2 ks3 _ IH1 _ IH2]; simpl.
  - done.
  - by rewrite !weightTo_app, IH.
  - rewrite !weightTo_app. lia.
  - by rewrite IH1.
Qed.

Lemma aggregatedWeight_union g sourceAtoms c :
  NoDup (sourceKeysOf sourceAtoms) →
  aggregatedWeight g sourceAtoms c = unionWeight g sourceAtoms c.
Proof.
  intros Hnd. unfold aggregatedWeight, unionWeight, edgesFrom.
  apply weightTo_keys_perm. symmetry. by apply elements_list_to_set.
Qed.

(** The stages of [getFollowUpConcepts] in terms of the edges met. *)
Lemma getFollowUpConcepts_stages sourceAtoms topK s :
  (getFollowUpConcepts sourceAtoms topK s).1
  = (slice
       (sort (λ a b, 0 <? b.2 - a.2)
          (foldl (λ m c, map_delete c m)
             (addTransitions [] (edgesFrom (graph (ensureLoaded s)) sourceAtoms))
             (elements (list_to_set (originalConceptsOf sourceAtoms)
                        : gset string))))
       0 (Some topK)).*1.
Proof.
  unfold getFollowUpConcepts. simpl. rewrite followUp_loops. simpl.
  by rewrite (right_id_L ∅ (∪)).
Qed.

Section follow_up_facts.
Variables (g : ConceptGraph) (sourceAtoms : list MemoryAtom).

Let es := edgesFrom g sourceAtoms.
Let associations := addTransitions [] es.
Let remaining :=
  foldl (λ m c, map_delete c m) associations
    (elements (list_to_set (originalConceptsOf sourceAtoms) : gset string)).
Let sorted := sort (λ a b : string * Z, 0 <? b.2 - a.2) remaining.

Lemma associations_keys :
  associations.*1 = first_occurrences (encountered g sourceAtoms).
Proof. apply addTransitions_nil_keys. Qed.

Lemma associations_NoDup : NoDup associations.*1.
Proof. rewrite associations_keys. apply first_occurrences_NoDup. Qed.

Lemma associations_value e :
  e ∈ associations → e.2 = aggregatedWeight g sourceAtoms e.1.
Proof.
  destruct e as [c w]. intros Hin.
  apply (map_get_NoDup _ _ _ associations_NoDup) in Hin.
  pose proof (addTransitions_get [] es c) as Hget.
  fold associations in Hget. rewrite Hin in Hget. simpl in *.
  unfold aggregatedWeight. fold es. lia.
Qed.

Lemma remaining_sublist : remaining `sublist_of` associations.
Proof. apply delete_all_sublist. Qed.

Lemma sorted_elem e : e ∈ sorted ↔ e ∈ remaining.
Proof. unfold sorted. by rewrite sort_perm. Qed.

Lemma sorted_elem_associations e : e ∈ sorted → e ∈ associations.
Proof.
  intros Hin%sorted_elem. eapply elem_of_sublist; [done|apply remaining_sublist].
Qed.

Lemma sorted_not_original e :
  e ∈ sorted → e.1 ∉ originalConceptsOf sourceAtoms.
Proof.
  intros Hin%sorted_elem Horig.
  apply (delete_all_not_elem associations
           (elements (list_to_set (originalConceptsOf sourceAtoms)
                      : gset string)) e.1 associations_NoDup).
  - by apply elem_of_elements, elem_of_list_to_set.
  - apply list_elem_of_fmap. by exists e.
Qed.

Lemma sorted_NoDup : NoDup sorted.*1.
Proof.
  unfold sorted. rewrite sort_perm.
  eapply sublist_NoDup; [apply associations_NoDup|].
  apply fmap_sublist, remaining_sublist.
Qed.

Lemma sorted_descending e e' :
  [e; e'] `sublist_of` sorted → e'.2 ≤ e.2.
Proof.
  apply (StronglySorted_sublist (λ a b : string * Z, b.2 ≤ a.2)).
  apply (sort_sorted snd).
Qed.

Lemma sorted_ties e e' :
  [e; e'] `sublist_of` sorted → e.2 = e'.2 →
  (first_index e.1 (encountered g sourceAtoms)
   < first_index e'.1 (encountered g sourceAtoms))%nat.
Proof.
  intros Hsub Heq.
  apply (sort_stable_pair snd) in Hsub; [|done].
  apply first_occurrences_order. rewrite <- associations_keys.
  change [e.1; e'.1] with ([e; e'].*1).
  apply fmap_sublist. etrans; [exact Hsub|apply remaining_sublist].
Qed.

(** A concept that was met and is not an original concept is in the sorted
    list. *)
Lemma sorted_complete c :
  c ∈ encountered g sourceAtoms → c ∉ originalConceptsOf sourceAtoms →
  ∃ e, e ∈ sorted ∧ e.1 = c.
Proof.
  intros Hc Horig.
  apply first_occurrences_elem in Hc. rewrite <- associations_keys in Hc.
  apply list_elem_of_fmap in Hc as (e & -> & He).
  exists e. split; [|done]. apply sorted_elem, delete_all_elem; [done|].
  by rewrite elem_of_elements, elem_of_list_to_set.
Qed.
End follow_up_facts.

(** C7, as the specification states it, fails: the weight that ranks the
    concepts is not the sum over the union of the keys of the input atoms.
    Two user messages that both have the concept [a] meet the key
    [user_message:a] twice, so its edge to [x], of weight 3, counts 6 and
    [x] comes before [y], whose only edge weighs 5.  And a negative [topK]
    is an index from the end for [slice]: with -1 all concepts but the last
    are returned, which is more than [topK]. *)
Lemma getFollowUpConcepts_not_by_union_weight :
  (getFollowUpConcepts ranking_atoms 2 ranking_srg).1 = ["x"; "y"]
  ∧ unionWeight (graph ranking_srg) ranking_atoms "x" = 3
  ∧ unionWeight (graph ranking_srg) ranking_atoms "y" = 5
  ∧ aggregatedWeight (graph ranking_srg) ranking_atoms "x" = 6
  ∧ ¬ (unionWeight (graph ranking_srg) ranking_atoms "y"
       ≤ unionWeight (graph ranking_srg) ranking_atoms "x")
  ∧ (getFollowUpConcepts cut_atoms (-1) cut_srg).1 = ["z"; "x"]
  ∧ ¬ (Z.of_nat (length (getFollowUpConcepts cut_atoms (-1) cut_srg).1) ≤ -1).
Proof.
  split_and!; [reflexivity..| |reflexivity|];
    vm_compute; intros H; by apply H.
Qed.

(** C7 as amended.  [getFollowUpConcepts] returns at most [topK] concepts,
    pairwise distinct, each one met as the target of an edge and none of
    them a concept of the input atoms.  They are in descending order of the
    weight aggregated over the edges met, by target concept and whatever
    the target category, an edge counting once for each time its source
    key is met in the input atoms; among equal weights the concept met
    first comes first.  A concept that was met, is not an original concept
    and is left out weighs no more than any returned one, and was first met
    after every returned one of its weight: the cut falls in that same
    order.  When the keys [type:concept] of the input atoms are pairwise
    distinct the weight is the sum over the union of the keys. *)
Theorem getFollowUpConcepts_ranked (sourceAtoms : list MemoryAtom) (topK : Z)
    (s : SrgService) :
  let g := graph (ensureLoaded s) in
  let result := (getFollowUpConcepts sourceAtoms topK s).1 in
  let w := aggregatedWeight g sourceAtoms in
  let met := encountered g sourceAtoms in
  (0 ≤ topK → (length result ≤ Z.to_nat topK)%nat)
  ∧ NoDup result
  ∧ (∀ c, c ∈ result →
       c ∈ met ∧ ∀ a, a ∈ sourceAtoms → c ∉ conceptsOf a)
  ∧ (∀ i j c c',
       (i < j)%nat → result !! i = Some c → result !! j = Some c' →
       w c' ≤ w c ∧ (w c = w c' → (first_index c met < first_index c' met)%nat))
  ∧ (0 ≤ topK →
     ∀ c, c ∈ met → (∀ a, a ∈ sourceAtoms → c ∉ conceptsOf a) →
       c ∉ result →
       length result = Z.to_nat topK
       ∧ ∀ c', c' ∈ result →
           w c ≤ w c'
           ∧ (w c = w c' → (first_index c' met < first_index c met)%nat))
  ∧ (∀ t c, followUpConceptOf (node_key t c) = c)
  ∧ (NoDup (sourceKeysOf sourceAtoms) → ∀ c, w c = unionWeight g sourceAtoms c).
Proof.
  intros g result w met.
  subst result met. rewrite getFollowUpConcepts_stages. fold g.
  set (sorted := sort _ _).
  assert (∀ c, (∀ a, a ∈ sourceAtoms → c ∉ conceptsOf a)
               ↔ c ∉ originalConceptsOf sourceAtoms) as Horig.
  { intros c. unfold originalConceptsOf. rewrite list_elem_of_In, in_flat_map.
    split.
    - intros Hall (a & Ha & Hc). apply (Hall a); by apply list_elem_of_In.
    - intros Hnone a Ha Hc. apply Hnone. exists a.
      split; by apply list_elem_of_In. }
  assert (∀ i c, (slice sorted 0 (Some topK)).*1 !! i = Some c →
            ∃ e, slice sorted 0 (Some topK) !! i = Some e ∧ e.1 = c) as Hentry.
  { intros i c (e & -> & He)%list_lookup_fmap_Some. by exists e. }
  split_and!.
  - intros HK. rewrite length_fmap. by apply slice_first_length.
  - eapply sublist_NoDup; [apply (sorted_NoDup g sourceAtoms)|].
    apply fmap_sublist, slice_sublist.
  - intros c (e & -> & He)%list_elem_of_fmap.
    assert (e ∈ sorted) as Hs
      by (eapply elem_of_sublist; [exact He|apply slice_sublist]).
    split.
    + apply first_occurrences_elem. rewrite <- associations_keys.
      apply list_elem_of_fmap. exists e. split; [done|].
      by apply (sorted_elem_associations g sourceAtoms).
    + apply Horig. by apply (sorted_not_original g sourceAtoms).
  - intros i j c c' Hij (e & He & <-)%Hentry (e' & He' & <-)%Hentry.
    assert ([e; e'] `sublist_of` sorted) as Hsub.
    { etrans; [by eapply lookup_pair_sublist|apply slice_sublist]. }
    assert (e ∈ sorted ∧ e' ∈ sorted) as [Hs Hs'].
    { split; (eapply elem_of_sublist; [|exact Hsub]); [left|right; left]. }
    unfold w.
    rewrite <- !(associations_value g sourceAtoms)
      by by apply (sorted_elem_associations g sourceAtoms).
    split; [by apply (sorted_descending g sourceAtoms)|].
    intros Heq. by apply (sorted_ties g sourceAtoms).
  - intros HK c Hmet Hc%Horig Hout.
    destruct (sorted_complete g sourceAtoms c Hmet Hc) as (e & He & <-).
    fold sorted in He. rewrite slice_first in Hout |- * by done.
    apply list_elem_of_lookup in He as [idx Hidx].
    assert (Z.to_nat topK ≤ idx)%nat as Hge.
    { apply Nat.nlt_ge. intros Hlt. apply Hout.
      apply list_elem_of_fmap. exists e. split; [done|].
      apply elem_of_take. by exists idx. }
    split.
    + rewrite length_fmap, length_take.
      apply lookup_lt_Some in Hidx. lia.
    + intros c' (e' & -> & [i' [Hi' Hlt']]%elem_of_take)%list_elem_of_fmap.
      assert ([e'; e] `sublist_of` sorted) as Hsub
        by (apply (lookup_pair_sublist _ i' idx); [lia|done..]).
      unfold w.
      rewrite <- !(associations_value g sourceAtoms)
        by (apply (sorted_elem_associations g sourceAtoms);
            by eapply list_elem_of_lookup_2).
      split; [by apply (sorted_descending g sourceAtoms)|].
      intros Heq. by apply (sorted_ties g sourceAtoms).
  - apply followUpConceptOf_node_key.
  - intros Hnd c. by apply aggregatedWeight_union.
Qed.

(** On the graph [a -> z: 7, x: 5, y: 5] and [topK = 2]: [y] ties with [x]
    and is the one left out, having been met after it. *)
Lemma getFollowUpConcepts_ranked_witness :
  (getFollowUpConcepts cut_atoms 2 cut_srg).1 = ["z"; "x"]
  ∧ aggregatedWeight (graph cut_srg) cut_atoms "y"
    = aggregatedWeight (graph cut_srg) cut_atoms "x"
  ∧ (first_index "x" (encountered (graph cut_srg) cut_atoms)
     < first_index "y" (encountered (graph cut_srg) cut_atoms))%nat.
Proof.
  assert ((getFollowUpConcepts cut_atoms 2 cut_srg).1 = ["z"; "x"]) as Hr
    by reflexivity.
  assert (aggregatedWeight (graph cut_srg) cut_atoms "y"
          = aggregatedWeight (graph cut_srg) cut_atoms "x") as Hw
    by reflexivity.
  split_and!; [exact Hr|exact Hw|].
  pose proof (getFollowUpConcepts_ranked cut_atoms 2 cut_srg)
    as (_ & _ & _ & _ & Hcut & _).
  destruct (Hcut ltac:(lia) "y") as [_ Hy].
  - apply (bool_decide_unpack _). reflexivity.
  - intros a Ha. apply (bool_decide_unpack _).
    apply list_elem_of_singleton in Ha as ->. reflexivity.
  - rewrite Hr. apply (bool_decide_unpack _). reflexivity.
  - apply (Hy "x"); [|exact Hw].
    rewrite Hr. apply (bool_decide_unpack _). reflexivity.
Defined.

(** ** [recall] on objects *)

Section fmap_facts.
Context {A B : Type} (f : A → B).

Lemma slice_fmap (l : list A) (start : Z) (end_ : option Z) :
  f <$> slice l start end_ = slice (f <$> l) start end_.
Proof. unfold slice. by rewrite fmap_take, fmap_drop, length_fmap. Qed.

Lemma sort_insert_fmap (after : B → B → bool) (x : A) (l : list A) :
  f <$> sort_insert (λ a b, after (f a) (f b)) x l
  = sort_insert after (f x) (f <$> l).
Proof.
  induction l as [|y l IH]; csimpl; [done|].
  destruct (after (f x) (f y)); csimpl; by rewrite ?IH.
Qed.

Lemma sort_fmap (after : B → B → bool) (l : list A) :
  f <$> sort (λ a b, after (f a) (f b)) l = sort after (f <$> l).
Proof.
  induction l as [|x l IH]; csimpl; [done|].
  by rewrite sort_insert_fmap, IH.
Qed.

Lemma filter_fmap (P : B → Prop) `{!∀ y, Decision (P y)} (l : list A) :
  f <$> filter (λ x, P (f x)) l = filter P (f <$> l).
Proof.
  induction l as [|x l IH]; csimpl; [done|].
  rewrite !filter_cons. case_decide; csimpl; by rewrite IH.
Qed.
End fmap_facts.

Lemma deref_app_l h k r : (r < length h)%nat → deref (h ++ k) r = deref h r.
Proof. intros Hr. unfold deref. by rewrite lookup_total_app_l. Qed.

Lemma deref_fmap_app_l h k (l : list nat) :
  Forall (λ r, (r < length h)%nat) l → deref (h ++ k) <$> l = deref h <$> l.
Proof.
  intros Hl. apply Forall_fmap_ext. eapply Forall_impl; [exact Hl|].
  intros r Hr. by apply deref_app_l.
Qed.

Lemma deref_fmap_seq h k : deref (h ++ k) <$> seq (length h) (length k) = k.
Proof.
  apply list_eq. intros i. rewrite list_lookup_fmap.
  destruct (decide (i < length k)%nat) as [Hlt|Hge].
  - rewrite lookup_seq_lt by done. simpl. unfold deref.
    rewrite lookup_total_app_r by lia.
    replace (length h + i - length h)%nat with i by lia.
    destruct (lookup_lt_is_Some_2 k i Hlt) as [x Hx].
    by rewrite (list_lookup_total_correct _ _ _ Hx).
  - rewrite lookup_seq_ge, lookup_ge_None_2 by lia. done.
Qed.

(** The scoring copies are new objects, allocated after the heap that was
    passed in, whatever the references are. *)
Lemma decay_refs_alloc currentTurn (l : list nat) h c :
  ∃ copies,
    (map_st (decayAtom_ref currentTurn) l (h, c)).2.1 = h ++ copies
    ∧ (map_st (decayAtom_ref currentTurn) l (h, c)).1
      = seq (length h) (length l)
    ∧ length copies = length l.
Proof.
  revert h c. induction l as [|r l IH]; intros h c; simpl.
  - exists []. by rewrite app_nil_r.
  - destruct (IH (h ++ [(decayAtom currentTurn (deref h r) c).1])
                (decayAtom currentTurn (deref h r) c).2)
      as (copies & Hh & Hrefs & Hlen).
    destruct (map_st _ l _) as [refs [h' c']]. simpl in *.
    exists ((decayAtom currentTurn (deref h r) c).1 :: copies).
    rewrite Hh, Hrefs, <- app_assoc, length_app. simpl.
    split_and!; [done| |by rewrite Hlen].
    f_equal. f_equal. lia.
Qed.

(** On references into the heap the copies are those of [decayAtom] on the
    objects read. *)
Lemma decay_refs_value currentTurn (l : list nat) h c :
  Forall (λ r, (r < length h)%nat) l →
  (map_st (decayAtom_ref currentTurn) l (h, c)).2.1
  = h ++ (map_st (decayAtom currentTurn) (deref h <$> l) c).1
  ∧ (map_st (decayAtom_ref currentTurn) l (h, c)).2.2
    = (map_st (decayAtom currentTurn) (deref h <$> l) c).2.
Proof.
  revert h c. induction l as [|r l IH]; intros h c Hl; csimpl.
  - by rewrite app_nil_r.
  - apply Forall_cons in Hl as [Hr Hl].
    set (copy := decayAtom currentTurn (deref h r) c).
    destruct (IH (h ++ [copy.1]) copy.2) as [Hh Hc].
    { eapply Forall_impl; [exact Hl|]. intros r' Hr'. simpl in Hr'.
      rewrite length_app. simpl. lia. }
    rewrite deref_fmap_app_l in Hh, Hc by done.
    destruct copy as [a c1] eqn:Hcopy. simpl in *.
    destruct (map_st (decayAtom_ref currentTurn) l _) as [refs [h' c']].
    destruct (map_st (decayAtom currentTurn) _ c1) as [ys c2].
    simpl in *. subst. by rewrite <- app_assoc.
Qed.

Lemma find_uuid_deref h (ltm : list nat) (u : string) :
  deref_found h (find (λ o, bool_decide (uuid (deref h o) = u)) ltm)
  = find (λ a, bool_decide (uuid a = u)) (deref h <$> ltm).
Proof.
  induction ltm as [|r ltm IH]; csimpl; [done|].
  by destruct (bool_decide (uuid (deref h r) = u)).
Qed.

Lemma selectTop_refs_deref k h ltm scored :
  deref_found h <$> selectTop_refs k h ltm scored
  = selectTop k (deref h <$> ltm) (toScored h <$> scored).
Proof.
  unfold selectTop_refs, selectTop.
  rewrite <- (filter_fmap (toScored h) (λ item, Qgtb (score item) 0 = true)).
  rewrite <- (sort_fmap (toScored h) (λ a b, Qgtb (score b - score a) 0)).
  rewrite <- slice_fmap, <- !list_fmap_compose.
  apply list_fmap_ext. intros i item _. simpl.
  apply find_uuid_deref.
Qed.

Lemma selectTop_refs_elem k h ltm scored x :
  x ∈ selectTop_refs k h ltm scored → x = None ∨ ∃ r, x = Some r ∧ r ∈ ltm.
Proof.
  unfold selectTop_refs.
  intros (item & -> & _)%list_elem_of_fmap.
  destruct (find _ ltm) as [r|] eqn:Hfind; [right|by left].
  exists r. split; [done|]. by apply find_Some in Hfind as [? _].
Qed.

Lemma Forall_sublist {A} (P : A → Prop) (l1 l2 : list A) :
  l1 `sublist_of` l2 → Forall P l2 → Forall P l1.
Proof.
  intros Hsub Hl2. apply Forall_forall. intros x Hx.
  apply (proj1 (Forall_forall _ _) Hl2). by eapply elem_of_sublist.
Qed.

Lemma Scored_eta (item : Scored) :
  {| atom := atom item; score := score item |} = item.
Proof. by destruct item. Qed.

(** The reference-level [recall] on a log of more than 15 references into
    the heap: the heap grows by the scoring copies, and what is returned
    stands for what [recall] returns on the objects read. *)
Lemma recall_refs_long h memory currentTurn srg c :
  Forall (λ r, (r < length h)%nat) memory →
  (15 < length memory)%nat →
  let atoms := deref h <$> memory in
  let out := recall_refs h memory currentTurn srg c in
  out.1.1.2 = h ++ decayedLtmOf atoms currentTurn c
  ∧ deref_found out.1.1.2 <$> memoryRefs out.1.1.1
    = memories (recall atoms currentTurn srg c).1.1
  ∧ deref_found out.1.1.2 <$> axiomRefs out.1.1.1
    = axioms (recall atoms currentTurn srg c).1.1
  ∧ out.1.2 = (recall atoms currentTurn srg c).1.2
  ∧ out.2 = (recall atoms currentTurn srg c).2.
Proof.
  intros Hvalid Hlen atoms out.
  set (ltm := slice memory 0 (Some (- STM_CAPACITY))).
  set (stm := slice memory (- STM_CAPACITY) None).
  assert (Forall (λ r, (r < length h)%nat) ltm) as Hltm
    by (eapply Forall_sublist; [apply slice_sublist|done]).
  assert (Forall (λ r, (r < length h)%nat) stm) as Hstm
    by (eapply Forall_sublist; [apply slice_sublist|done]).
  assert (deref h <$> ltm = ltmOf atoms) as Hltmv
    by apply slice_fmap.
  assert (deref h <$> stm = stmOf atoms) as Hstmv
    by apply slice_fmap.
  destruct (decay_refs_value currentTurn ltm h c Hltm) as [Hheap Hcache].
  destruct (decay_refs_alloc currentTurn ltm h c) as (copies & Hh & Hrefs & Hn).
  rewrite Hltmv in Hheap, Hcache. fold (decayedLtmOf atoms currentTurn c) in Hheap.
  rewrite Hheap in Hh. apply app_inv_head in Hh. subst copies.
  set (h1 := h ++ decayedLtmOf atoms currentTurn c) in *.
  assert (deref h1 <$> ltm = ltmOf atoms) as Hltm1
    by (unfold h1; by rewrite deref_fmap_app_l).
  assert (deref h1 <$> stm = stmOf atoms) as Hstm1
    by (unfold h1; by rewrite deref_fmap_app_l).
  assert (deref h1 <$> seq (length h) (length ltm)
          = decayedLtmOf atoms currentTurn c) as Hcopies.
  { unfold h1. rewrite <- Hn. apply deref_fmap_seq. }
  assert (15 < length atoms)%nat as Hlen'
    by (subst atoms; by rewrite length_fmap).
  destruct (recall_long_state atoms currentTurn srg c Hlen') as [-> ->].
  rewrite (recall_long atoms) by done.
  subst out. unfold recall_refs.
  destruct (Z.leb_spec (Z.of_nat (length memory)) STM_CAPACITY) as [Hle|_];
    [unfold STM_CAPACITY in Hle; lia|].
  cbv zeta. fold ltm stm. rewrite Hheap, Hrefs, Hcache, Hstm1.
  cbn [fst snd memoryRefs axiomRefs memories axioms].
  split_and!; [done| | |done..].
  - rewrite selectTop_refs_deref, Hltm1. f_equal.
    unfold scoredMemoriesOf. rewrite <- Hcopies.
    rewrite <- filter_fmap, <- !list_fmap_compose.
    apply list_fmap_ext. intros i r _. unfold toScored. simpl.
    match goal with
    | |- {| atom := _; score := score ?x |} = _ =>
        etrans; [|apply (Scored_eta x)]; by rewrite atom_scoreMemory
    end.
  - rewrite selectTop_refs_deref, Hltm1. f_equal.
    unfold scoredAxiomsOf. rewrite <- Hcopies.
    rewrite <- filter_fmap, <- !list_fmap_compose.
    by apply list_fmap_ext.
Qed.

Lemma recall_refs_elem h memory currentTurn srg c x :
  x ∈ memoryRefs (recall_refs h memory currentTurn srg c).1.1.1
  ∨ x ∈ axiomRefs (recall_refs h memory currentTurn srg c).1.1.1 →
  x = None ∨ ∃ r, x = Some r ∧ r ∈ slice memory 0 (Some (- STM_CAPACITY)).
Proof.
  unfold recall_refs.
  destruct (Z.of_nat (length memory) <=? STM_CAPACITY).
  - simpl. intros [H|H]; by apply elem_of_nil in H.
  - cbv zeta. cbn [fst snd memoryRefs axiomRefs].
    intros [H|H]; by apply selectTop_refs_elem in H.
Qed.

Lemma recall_refs_heap h memory currentTurn srg c :
  ∃ copies, (recall_refs h memory currentTurn srg c).1.1.2 = h ++ copies.
Proof.
  unfold recall_refs.
  destruct (Z.of_nat (length memory) <=? STM_CAPACITY).
  - exists []. simpl. by rewrite app_nil_r.
  - cbv zeta. cbn [fst snd].
    destruct (decay_refs_alloc currentTurn
                (slice memory 0 (Some (- STM_CAPACITY))) h c)
      as (copies & Hh & _). by exists copies.
Qed.

Lemma recall_refs_link h memory currentTurn srg c :
  Forall (λ r, (r < length h)%nat) memory →
  let atoms := deref h <$> memory in
  let out := recall_refs h memory currentTurn srg c in
  deref_found out.1.1.2 <$> memoryRefs out.1.1.1
  = memories (recall atoms currentTurn srg c).1.1
  ∧ deref_found out.1.1.2 <$> axiomRefs out.1.1.1
    = axioms (recall atoms currentTurn srg c).1.1.
Proof.
  intros Hvalid atoms out.
  destruct (decide (length memory ≤ 15)%nat) as [Hshort|Hlong].
  - subst out atoms. rewrite recall_early_exit by by rewrite length_fmap.
    unfold recall_refs, STM_CAPACITY.
    by destruct (Z.leb_spec (Z.of_nat (length memory)) 15); [|lia].
  - destruct (recall_refs_long h memory currentTurn srg c Hvalid ltac:(lia))
      as (_ & Hm & Ha & _). done.
Qed.

(** C9.  [recall] writes to no object of the caller: the heap it leaves is
    the heap it was given followed by new objects (the scoring copies), so
    every atom of the log has the fields it had, [activationScore] and
    [lastActivatedTurn] among them.  What it returns are references taken
    from the log itself, from before its last 15 positions: the original
    atoms, not their decayed copies.  Read from the heap, the references
    returned are the atoms [recall] returns on values. *)
Theorem recall_frame (h : list MemoryAtom) (memory : list nat)
    (currentTurn : Z) (srg : SrgService) (fibCache : gmap Z Z) :
  Forall (λ r, (r < length h)%nat) memory →
  let atoms := deref h <$> memory in
  let out := recall_refs h memory currentTurn srg fibCache in
  let res := out.1.1.1 in
  let h' := out.1.1.2 in
  (∃ copies, h' = h ++ copies)
  ∧ (∀ r a, h !! r = Some a → h' !! r = Some a)
  ∧ (∀ r, r ∈ memory →
       deref h' r = deref h r
       ∧ activationScore (deref h' r) = activationScore (deref h r)
       ∧ lastActivatedTurn (deref h' r) = lastActivatedTurn (deref h r))
  ∧ (∀ x, x ∈ memoryRefs res ∨ x ∈ axiomRefs res →
       ∃ r i, x = Some r ∧ memory !! i = Some r
         ∧ (i + 15 < length memory)%nat ∧ (r < length h)%nat
         ∧ deref h' r = deref h r)
  ∧ deref_found h' <$> memoryRefs res
    = memories (recall atoms currentTurn srg fibCache).1.1
  ∧ deref_found h' <$> axiomRefs res
    = axioms (recall atoms currentTurn srg fibCache).1.1.
Proof.
  intros Hvalid atoms out res h'.
  destruct (recall_refs_heap h memory currentTurn srg fibCache)
    as [copies Hh'].
  fold out h' in Hh'.
  destruct (recall_refs_link h memory currentTurn srg fibCache Hvalid)
    as [Hm Ha].
  fold atoms out res h' in Hm, Ha.
  assert (∀ r, (r < length h)%nat → deref h' r = deref h r) as Hsame.
  { intros r Hr. rewrite Hh'. by apply deref_app_l. }
  assert (∀ r, r ∈ memory → (r < length h)%nat) as Hlt.
  { intros r Hr. by apply (proj1 (Forall_forall _ _) Hvalid). }
  split_and!; [by exists copies| | | |done..].
  - intros r a Hr. rewrite Hh'. by apply lookup_app_l_Some.
  - intros r Hr. by rewrite Hsame by by apply Hlt.
  - intros x Hx.
    assert (is_Some (deref_found h' x)) as [a Hsome].
    { destruct (recall_returns_ltm atoms currentTurn srg fibCache
                  (deref_found h' x)) as (a & -> & _); [|done].
      rewrite <- Hm, <- Ha.
      destruct Hx as [Hx|Hx]; [left|right]; by apply list_elem_of_fmap_2. }
    apply recall_refs_elem in Hx as [->|(r & -> & Hr)]; [done|].
    apply list_elem_of_lookup in Hr as [i Hi].
    pose proof (slice_but_last memory 14) as Hslice.
    change (- Z.of_nat 15) with (- STM_CAPACITY) in Hslice.
    rewrite Hslice in Hi. apply lookup_take_Some in Hi as [Hi Hlti].
    assert (r ∈ memory) as Hin by by eapply list_elem_of_lookup_2.
    exists r, i. split_and!; [done|done|lia|by apply Hlt|].
    apply Hsame. by apply Hlt.
Qed.

Lemma recall_frame_witness :
  memoryRefs (recall_refs example_heap example_refs 20 example_srg ∅).1.1.1
  = [Some 0%nat; Some 2%nat]
  ∧ ∀ r, r ∈ example_refs →
      activationScore
        (deref (recall_refs example_heap example_refs 20 example_srg ∅).1.1.2 r)
      = activationScore (deref example_heap r).
Proof.
  split; [by vm_compute|]. intros r Hr.
  apply (recall_frame example_heap example_refs 20 example_srg ∅); [|done].
  by apply (bool_decide_unpack _).
Defined.

(** ** The scores [recall] ranks *)








(** * Further properties *)

(** ** The Fibonacci cache is an initial segment of the table *)

Lemma cache_table_empty : cache_table 1 ∅.
Proof. intros k. rewrite lookup_empty. case_decide; [lia|done]. Qed.

Lemma cache_table_unique m c1 c2 :
  cache_table m c1 → cache_table m c2 → c1 = c2.
Proof. intros H1 H2. apply map_eq. intros k. by rewrite H1, H2. Qed.

Lemma cache_table_ok m c : cache_table m c → cache_ok c.
Proof.
  intros Ht k v. rewrite Ht. case_decide; [|done]. by intros [= <-].
Qed.

Lemma fibonacci_fuel_table fuel n c m :
  1 ≤ m ≤ 40 → cache_table m c → (Z.to_nat (Z.min n 40) < fuel)%nat →
  ∃ c', fibonacci_fuel fuel n c = Some (fib n, c')
    ∧ cache_table (Z.max m (Z.min n 40)) c'.
Proof.
  revert n c m. induction fuel as [|fuel IH]; intros n c m Hm Ht Hf; [lia|].
  simpl. destruct (Z.leb_spec n 1) as [Hn|Hn].
  { exists c. rewrite fib_le_1 by done. split; [done|].
    by rewrite Z.max_l by lia. }
  rewrite (Ht n). case_decide as Hcached.
  { exists c. split; [done|]. by rewrite Z.max_l by lia. }
  destruct (IH (Z.min n 40 - 1) c m Hm Ht ltac:(lia)) as (c1 & -> & Ht1).
  destruct (IH (Z.min n 40 - 2) c1 (Z.max m (Z.min (Z.min n 40 - 1) 40))
              ltac:(lia) Ht1 ltac:(lia)) as (c2 & -> & Ht2).
  rewrite <- fib_rec by lia.
  assert (fib (Z.min n 40) = fib n) as Hcap.
  { unfold fib. f_equal. lia. }
  eexists; split; [done|].
  intros k. rewrite lookup_insert, (Ht2 k).
  destruct (decide (Z.min n 40 = k)) as [<-|Hk].
  - rewrite decide_True by lia. by rewrite Hcap.
  - repeat case_decide; try done; lia.
Qed.

(** X1.  From a cache that is the Fibonacci table up to an index [m <= 40]
    (the empty cache is the table up to 1) a call [fibonacci(n)] returns the
    capped Fibonacci number and leaves the table up to
    [max(m, min(n, 40))]: the cache never holds an index above 40, never
    more than 39 entries, and never loses one.  A second call with the same
    argument returns the same number and leaves the cache as it is. *)
Theorem fibonacci_cache_table (n m : Z) (fibCache : gmap Z Z) :
  1 ≤ m ≤ 40 → cache_table m fibCache →
  let r := fibonacci n fibCache in
  r.1 = fib n
  ∧ cache_table (Z.max m (Z.min n 40)) r.2
  ∧ fibCache ⊆ r.2
  ∧ (∀ k v, r.2 !! k = Some v → 2 ≤ k ≤ 40 ∧ v = fib k)
  ∧ fibonacci n r.2 = r.
Proof.
  intros Hm Ht r.
  assert (∃ c', r = (fib n, c') ∧ cache_table (Z.max m (Z.min n 40)) c')
    as (c' & -> & Ht').
  { subst r. unfold fibonacci.
    destruct (fibonacci_fuel_table 41 n fibCache m Hm Ht ltac:(lia))
      as (c' & -> & Ht'). by exists c'. }
  simpl. split_and!; [done|done| | |].
  - apply map_subseteq_spec. intros k v. rewrite Ht, Ht'.
    repeat case_decide; try done; lia.
  - intros k v. rewrite Ht'. case_decide; [|done]. intros [= <-]. lia.
  - unfold fibonacci.
    destruct (fibonacci_fuel_table 41 n c' (Z.max m (Z.min n 40))
                ltac:(lia) Ht' ltac:(lia)) as (c'' & -> & Ht'').
    f_equal. eapply cache_table_unique; [exact Ht''|].
    by replace (Z.max (Z.max m (Z.min n 40)) (Z.min n 40))
      with (Z.max m (Z.min n 40)) by lia.
Qed.

Lemma fibonacci_cache_table_witness :
  (fibonacci 45 ∅).1 = fib 45
  ∧ fibonacci 45 (fibonacci 45 ∅).2 = fibonacci 45 ∅.
Proof.
  pose proof (fibonacci_cache_table 45 1 ∅ ltac:(lia) cache_table_empty)
    as (H1 & _ & _ & _ & H2).
  by split.
Defined.

(** ** Loading the graph *)

Lemma ensureLoaded_idemp s : ensureLoaded (ensureLoaded s) = ensureLoaded s.
Proof.
  unfold ensureLoaded, loadGraph.
  destruct s as [g [] d]; [done|]; by destruct d.
Qed.

Lemma ensureLoaded_loaded s : isLoaded s = true → ensureLoaded s = s.
Proof. unfold ensureLoaded. by intros ->. Qed.

Lemma trainOnTransition_loaded e a b s :
  isLoaded s = true → isLoaded (trainOnTransition e a b s) = true.
Proof.
  intros Hl. unfold trainOnTransition. rewrite (ensureLoaded_loaded s Hl).
  by destruct (_ || _).
Qed.

Lemma ensureLoaded_trainOnTransition e a b s :
  ensureLoaded (trainOnTransition e a b s) = trainOnTransition e a b s.
Proof.
  unfold trainOnTransition.
  pose proof (ensureLoaded_idemp s) as Hid.
  destruct (_ || _); [done|].
  unfold ensureLoaded in *. simpl.
  destruct (isLoaded (if isLoaded s then s else loadGraph s)) eqn:Hl; [done|].
  unfold loadGraph in *. simpl.
  destruct s as [g [] d]; simpl in *; [done|].
  by destruct d.
Qed.

(** ** Training over several transitions *)

Section training_runs.
Variable extractConcepts : string → list string.

Lemma trainOnTransition_weight a b s k1 k2 :
  weight (graph (trainOnTransition extractConcepts a b s)) k1 k2
  = weight (graph (ensureLoaded s)) k1 k2
    + Z.of_nat (occurrences k1
                  (node_key (type a) <$> conceptsOrExtract extractConcepts a))
      * Z.of_nat (occurrences k2
                    (node_key (type b) <$> conceptsOrExtract extractConcepts b)).
Proof.
  rewrite trainOnTransition_graph.
  destruct (conceptsOrExtract extractConcepts a) as [|sc scs] eqn:Hs.
  { unfold occurrences. simpl. lia. }
  destruct (conceptsOrExtract extractConcepts b) as [|tc tcs] eqn:Ht.
  { unfold occurrences. simpl. lia. }
  apply train_weight.
Qed.

Lemma trainAll_loaded pairs s :
  isLoaded s = true → isLoaded (trainAll extractConcepts pairs s) = true.
Proof.
  unfold trainAll. revert s.
  induction pairs as [|p pairs IH]; intros s Hl; simpl; [done|].
  apply IH. by apply trainOnTransition_loaded.
Qed.

Lemma trainAll_weight pairs s k1 k2 :
  isLoaded s = true →
  weight (graph (trainAll extractConcepts pairs s)) k1 k2
  = weight (graph s) k1 k2 + trained extractConcepts pairs k1 k2.
Proof.
  unfold trainAll, trained. revert s.
  induction pairs as [|p pairs IH]; intros s Hl; csimpl; [lia|].
  rewrite IH by by apply trainOnTransition_loaded.
  rewrite trainOnTransition_weight, (ensureLoaded_loaded s Hl). lia.
Qed.

Lemma trained_nonneg pairs k1 k2 : 0 ≤ trained extractConcepts pairs k1 k2.
Proof.
  unfold trained. induction pairs as [|p pairs IH]; csimpl; [lia|]. nia.
Qed.

Lemma trained_perm pairs pairs' k1 k2 :
  pairs ≡ₚ pairs' →
  trained extractConcepts pairs k1 k2 = trained extractConcepts pairs' k1 k2.
Proof.
  unfold trained.
  induction 1 as [|p l1 l2 _ IH|p q l|l1 l2 l3 _ IH1 _ IH2]; csimpl; lia.
Qed.

(** X3.  On a loaded service a run of trainings adds to each edge the sum,
    over the transitions, of the product of the occurrences of its two
    keys: no weight ever decreases, and the weights after the run do not
    depend on the order of the transitions. *)
Theorem training_accumulates (pairs pairs' : list (MemoryAtom * MemoryAtom))
    (s : SrgService) :
  isLoaded s = true →
  let s' := trainAll extractConcepts pairs s in
  isLoaded s' = true
  ∧ (∀ k1 k2,
       weight (graph s') k1 k2
       = weight (graph s) k1 k2 + trained extractConcepts pairs k1 k2)
  ∧ (∀ k1 k2, weight (graph s) k1 k2 ≤ weight (graph s') k1 k2)
  ∧ (pairs ≡ₚ pairs' →
     ∀ k1 k2,
       weight (graph (trainAll extractConcepts pairs' s)) k1 k2
       = weight (graph s') k1 k2).
Proof.
  intros Hl s'. split_and!.
  - by apply trainAll_loaded.
  - intros k1 k2. by apply trainAll_weight.
  - intros k1 k2. subst s'. rewrite trainAll_weight by done.
    pose proof (trained_nonneg pairs k1 k2). lia.
  - intros Hp k1 k2. subst s'. rewrite !trainAll_weight by done.
    by rewrite (trained_perm pairs pairs').
Qed.
End training_runs.

Lemma training_accumulates_witness :
  weight (graph (trainAll (λ _, [])
                   [(stm_query, ltm_general); (ltm_general, stm_query);
                    (stm_query, ltm_general)] example_srg))
    "user_message:cat" "user_message:fish" = 2.
Proof.
  pose proof (training_accumulates (λ _, [])
                [(stm_query, ltm_general); (ltm_general, stm_query);
                 (stm_query, ltm_general)] [] example_srg eq_refl)
    as (_ & H & _).
  rewrite H. reflexivity.
Defined.

(** ** [getFollowUpConcepts]: nothing to predict *)

Lemma getFollowUpConcepts_elem atoms topK s c :
  c ∈ (getFollowUpConcepts atoms topK s).1 →
  c ∈ encountered (graph (ensureLoaded s)) atoms
  ∧ c ∉ originalConceptsOf atoms.
Proof.
  rewrite getFollowUpConcepts_stages.
  intros (e & -> & He)%list_elem_of_fmap.
  assert (e ∈ sort (λ a b : string * Z, 0 <? b.2 - a.2)
            (foldl (λ m c, map_delete c m)
               (addTransitions [] (edgesFrom (graph (ensureLoaded s)) atoms))
               (elements (list_to_set (originalConceptsOf atoms)
                          : gset string)))) as Hs
    by (eapply elem_of_sublist; [exact He|apply slice_sublist]).
  split.
  - apply first_occurrences_elem.
    rewrite <- (associations_keys (graph (ensureLoaded s)) atoms).
    apply list_elem_of_fmap. exists e. split; [done|].
    by apply (sorted_elem_associations (graph (ensureLoaded s)) atoms).
  - by apply (sorted_not_original (graph (ensureLoaded s)) atoms).
Qed.

Lemma list_empty_no_elem {A} (l : list A) : (∀ x, x ∉ l) → l = [].
Proof.
  destruct l as [|x l]; [done|]. intros H. destruct (H x). left.
Qed.

Lemma edgesFrom_nil g atoms :
  (∀ k, k ∈ sourceKeysOf atoms → default [] (map_get k g) = []) →
  edgesFrom g atoms = [].
Proof.
  unfold edgesFrom. induction (sourceKeysOf atoms) as [|k ks IH];
    intros Hk; simpl; [done|].
  rewrite (Hk k) by left. simpl. apply IH. intros k' Hk'. apply Hk. by right.
Qed.

(** X4.  [getFollowUpConcepts] returns the empty list when no key of the
    source atoms has an outgoing edge (no source atom, no concepts on the
    atoms, an empty graph, keys the graph does not know), when every
    concept reached is itself a concept of the source atoms, and when
    [topK] is 0. *)
Theorem getFollowUpConcepts_nothing (atoms : list MemoryAtom) (topK : Z)
    (s : SrgService) :
  let g := graph (ensureLoaded s) in
  let result := (getFollowUpConcepts atoms topK s).1 in
  ((∀ k, k ∈ sourceKeysOf atoms → default [] (map_get k g) = []) →
   result = [])
  ∧ (atoms = [] → result = [])
  ∧ ((∀ a, a ∈ atoms → conceptsOf a = []) → result = [])
  ∧ (g = [] → result = [])
  ∧ ((∀ c, c ∈ encountered g atoms → c ∈ originalConceptsOf atoms) →
     result = [])
  ∧ (topK = 0 → result = []).
Proof.
  intros g result.
  assert ((∀ k, k ∈ sourceKeysOf atoms → default [] (map_get k g) = []) →
          result = []) as Hnone.
  { intros Hk. apply list_empty_no_elem. intros c Hc.
    apply getFollowUpConcepts_elem in Hc as [Hc _]. fold g in Hc.
    unfold encountered in Hc. rewrite edgesFrom_nil in Hc by done.
    by apply elem_of_nil in Hc. }
  split_and!.
  - done.
  - intros ->. apply Hnone. intros k Hk. by apply elem_of_nil in Hk.
  - intros Hno. apply Hnone. intros k Hk. exfalso.
    unfold sourceKeysOf in Hk.
    apply list_elem_of_In, in_flat_map in Hk as (a & Ha & Hk).
    apply list_elem_of_In in Ha, Hk. rewrite (Hno a Ha) in Hk.
    by apply elem_of_nil in Hk.
  - intros Hg. apply Hnone. intros k _. by rewrite Hg.
  - intros Hall. apply list_empty_no_elem. intros c Hc.
    apply getFollowUpConcepts_elem in Hc as [Hc Hout]. fold g in Hc.
    by apply Hout, Hall.
  - intros ->. subst result. rewrite getFollowUpConcepts_stages.
    by rewrite slice_first by done.
Qed.

Lemma getFollowUpConcepts_nothing_witness :
  encountered (graph example_srg) [stm_query; ltm_general] = ["fish"]
  ∧ (getFollowUpConcepts [stm_query; ltm_general] 5 example_srg).1 = [].
Proof.
  assert (encountered (graph example_srg) [stm_query; ltm_general] = ["fish"])
    as Henc by reflexivity.
  split; [exact Henc|].
  pose proof (getFollowUpConcepts_nothing [stm_query; ltm_general] 5
                example_srg) as (_ & _ & _ & _ & H & _).
  apply H. change (graph (ensureLoaded example_srg)) with (graph example_srg).
  rewrite Henc. intros c Hc. apply list_elem_of_singleton in Hc as ->.
  apply (bool_decide_unpack _). reflexivity.
Defined.

(** ** Learning a transition, then predicting from its source *)

Section js_map_order.
Context {V : Type}.
Implicit Types (m : JsMap V) (k : string) (v : V).

Lemma map_get_fresh k m : k ∉ m.*1 → map_get k m = None.
Proof.
  induction m as [|[k0 v0] m IH]; csimpl; [done|].
  intros [Hne Hk]%not_elem_of_cons.
  rewrite decide_False by done. by apply IH.
Qed.

Lemma map_has_fresh k m : k ∉ m.*1 → map_has k m = false.
Proof. intros Hk. unfold map_has. by rewrite map_get_fresh. Qed.

Lemma map_set_fresh k v m : k ∉ m.*1 → map_set k v m = m ++ [(k, v)].
Proof.
  induction m as [|[k0 v0] m IH]; csimpl; [done|].
  intros [Hne Hk]%not_elem_of_cons.
  rewrite decide_False by done. by rewrite IH.
Qed.

Lemma map_get_middle k v m1 m2 :
  k ∉ m1.*1 → map_get k (m1 ++ (k, v) :: m2) = Some v.
Proof.
  induction m1 as [|[k0 v0] m1 IH]; csimpl.
  - intros _. by rewrite decide_True.
  - intros [Hne Hk]%not_elem_of_cons.
    rewrite decide_False by done. by apply IH.
Qed.

Lemma map_set_middle k v v' m1 m2 :
  k ∉ m1.*1 → map_set k v' (m1 ++ (k, v) :: m2) = m1 ++ (k, v') :: m2.
Proof.
  induction m1 as [|[k0 v0] m1 IH]; csimpl.
  - intros _. by rewrite decide_True.
  - intros [Hne Hk]%not_elem_of_cons.
    rewrite decide_False by done. by rewrite IH.
Qed.

Lemma map_delete_filter k m :
  NoDup m.*1 → map_delete k m = filter (λ e, e.1 ≠ k) m.
Proof.
  induction m as [|[k0 v0] m IH]; csimpl; [done|].
  intros [Hk0 Hnd]%NoDup_cons. rewrite filter_cons. simpl.
  destruct (decide (k0 = k)) as [->|Hne].
  - rewrite decide_False by (by intros ?).
    symmetry. apply filter_true. intros e He Heq.
    apply Hk0, list_elem_of_fmap. by exists e.
  - rewrite decide_True by done. by rewrite IH.
Qed.

Lemma delete_all_filter m (cs : list string) :
  NoDup m.*1 →
  foldl (λ m c, map_delete c m) m cs = filter (λ e, e.1 ∉ cs) m.
Proof.
  revert m. induction cs as [|c cs IH]; intros m Hnd; simpl.
  - symmetry. apply filter_true. intros e _. apply not_elem_of_nil.
  - rewrite IH, map_delete_filter by
      (done || exact (sublist_NoDup _ _ Hnd
                        (fmap_sublist _ _ _ (map_delete_sublist c m)))).
    rewrite list_filter_filter. apply list_filter_iff.
    intros e. rewrite not_elem_of_cons. tauto.
Qed.
End js_map_order.

(** Sorting a list whose keys are all equal leaves it as it is. *)
Lemma sort_constant {A} (key : A → Z) (w : Z) (l : list A) :
  (∀ x, x ∈ l → key x = w) → sort (λ a b, 0 <? key b - key a) l = l.
Proof.
  intros Hw.
  rewrite <- (filter_true (λ a, key a = w) (sort _ l)).
  - rewrite (sort_stable key). by apply filter_true.
  - intros x Hx. apply Hw. by rewrite sort_perm in Hx.
Qed.

Section learn_predict.
Variables (sourceType targetType : MemoryAtomType).
Variables (scs tcs : list string).
Hypothesis scs_NoDup : NoDup scs.
Hypothesis tcs_NoDup : NoDup tcs.

(** The transitions every source concept gets on a fresh graph. *)
Let T : JsMap Z := (λ tc, (node_key targetType tc, 1)) <$> tcs.

Lemma trainTargets_fresh (m : JsMap Z) (cs : list string) :
  NoDup cs → (∀ tc, tc ∈ cs → node_key targetType tc ∉ m.*1) →
  trainTargets targetType cs m
  = m ++ ((λ tc, (node_key targetType tc, 1)) <$> cs).
Proof.
  unfold trainTargets. revert m.
  induction cs as [|tc cs IH]; intros m Hnd Hfresh; csimpl.
  - by rewrite app_nil_r.
  - apply NoDup_cons in Hnd as [Htc Hnd].
    rewrite map_get_fresh, map_set_fresh by (apply Hfresh; left). simpl.
    rewrite IH; [by rewrite <- app_assoc|done|].
    intros tc' Htc'. rewrite fmap_app, not_elem_of_app. split.
    + apply Hfresh. by right.
    + simpl. rewrite list_elem_of_singleton. intros Heq.
      apply (inj (node_key targetType)) in Heq. by subst.
Qed.

Lemma trainSources_fresh (g : ConceptGraph) (cs : list string) :
  NoDup cs → (∀ sc, sc ∈ cs → node_key sourceType sc ∉ g.*1) →
  foldl (trainSource sourceType targetType tcs) g cs
  = g ++ ((λ sc, (node_key sourceType sc, T)) <$> cs).
Proof.
  revert g. induction cs as [|sc cs IH]; intros g Hnd Hfresh; csimpl.
  - by rewrite app_nil_r.
  - apply NoDup_cons in Hnd as [Hsc Hnd].
    assert (trainSource sourceType targetType tcs g sc
            = g ++ [(node_key sourceType sc, T)]) as ->.
    { assert (node_key sourceType sc ∉ g.*1) as Hkey
        by (apply Hfresh; left).
      unfold trainSource. cbv zeta.
      rewrite (map_has_fresh _ _ Hkey), (map_set_fresh _ _ _ Hkey).
      rewrite (map_get_middle _ _ _ _ Hkey), (map_set_middle _ _ _ _ _ Hkey).
      simpl. rewrite trainTargets_fresh; [done..|].
      intros tc _. apply not_elem_of_nil. }
    rewrite IH; [by rewrite <- app_assoc|done|].
    intros sc' Hsc'. rewrite fmap_app, not_elem_of_app. split.
    + apply Hfresh. by right.
    + simpl. rewrite list_elem_of_singleton. intros Heq.
      apply (inj (node_key sourceType)) in Heq. by subst.
Qed.

(** One more pass over [T] raises every count by one. *)
Lemma addTransitions_again (n : Z) (pre post : list string) :
  NoDup (pre ++ post) →
  addTransitions
    (((λ tc, (tc, n + 1)) <$> pre) ++ ((λ tc, (tc, n)) <$> post))
    ((λ tc, (node_key targetType tc, 1)) <$> post)
  = (λ tc, (tc, n + 1)) <$> (pre ++ post).
Proof.
  unfold addTransitions. revert pre.
  induction post as [|tc post IH]; intros pre Hnd; csimpl.
  - by rewrite !app_nil_r.
  - rewrite followUpConceptOf_node_key.
    assert (tc ∉ ((λ tc, (tc, n + 1)) <$> pre).*1) as Hfresh.
    { rewrite <- list_fmap_compose.
      apply NoDup_app in Hnd as (_ & Hdisj & _).
      intros (c & Hc & Hin)%list_elem_of_fmap. simpl in Hc. subst c.
      apply (Hdisj tc Hin). left. }
    rewrite map_get_middle, map_set_middle by done. simpl.
    specialize (IH (pre ++ [tc])).
    rewrite !fmap_app, <- !app_assoc in IH. simpl in IH.
    rewrite fmap_app. simpl. by apply IH.
Qed.

Lemma addTransitions_first :
  addTransitions [] T = (λ tc, (tc, 1)) <$> tcs.
Proof.
  unfold T, addTransitions.
  assert (∀ (m : JsMap Z) (cs : list string),
            NoDup cs → (∀ tc, tc ∈ cs → tc ∉ m.*1) →
            foldl (λ associations entry,
                     map_set (followUpConceptOf entry.1)
                       (default 0 (map_get (followUpConceptOf entry.1)
                                     associations) + entry.2)
                       associations)
              m ((λ tc, (node_key targetType tc, 1)) <$> cs)
            = m ++ ((λ tc, (tc, 1)) <$> cs)) as Hgen.
  { intros m cs. revert m.
    induction cs as [|tc cs IH]; intros m Hnd Hfresh; csimpl.
    - by rewrite app_nil_r.
    - apply NoDup_cons in Hnd as [Htc Hnd].
      rewrite followUpConceptOf_node_key.
      rewrite map_get_fresh, map_set_fresh by (apply Hfresh; left). simpl.
      rewrite IH; [by rewrite <- app_assoc|done|].
      intros tc' Htc'. rewrite fmap_app, not_elem_of_app. split.
      + apply Hfresh. by right.
      + simpl. rewrite list_elem_of_singleton. by intros ->. }
  apply (Hgen [] tcs tcs_NoDup). intros tc _. apply not_elem_of_nil.
Qed.

Lemma addTransitions_repeated (cs : list string) (n : Z) :
  addTransitions ((λ tc, (tc, n)) <$> tcs) (flat_map (λ _, T) cs)
  = (λ tc, (tc, n + Z.of_nat (length cs))) <$> tcs.
Proof.
  revert n. induction cs as [|c cs IH]; intros n; simpl.
  - apply list_fmap_ext. intros _ tc _. f_equal. lia.
  - rewrite addTransitions_app.
    pose proof (addTransitions_again n [] tcs tcs_NoDup) as Hagain.
    simpl in Hagain. fold T in Hagain. rewrite Hagain, IH.
    apply list_fmap_ext. intros _ tc _. f_equal. lia.
Qed.
End learn_predict.

Lemma map_get_app_fresh {V} (k : string) (m1 m2 : JsMap V) :
  k ∉ m1.*1 → map_get k (m1 ++ m2) = map_get k m2.
Proof.
  induction m1 as [|[k0 v0] m1 IH]; csimpl; [done|].
  intros [Hne Hk]%not_elem_of_cons.
  rewrite decide_False by done. by apply IH.
Qed.

Lemma map_get_constant {V} (f : string → string) (v : V) (c : string)
    (cs : list string) :
  c ∈ cs → map_get (f c) ((λ c, (f c, v)) <$> cs) = Some v.
Proof.
  induction cs as [|c0 cs IH]; csimpl.
  - by intros ?%elem_of_nil.
  - intros [->|Hin]%elem_of_cons; [by rewrite decide_True|].
    case_decide; [done|]. by apply IH.
Qed.

Lemma flat_map_constant {A B} (f : A → list B) (v : list B) (l : list A) :
  (∀ x, x ∈ l → f x = v) → flat_map f l = flat_map (λ _, v) l.
Proof.
  induction l as [|x l IH]; intros Hf; simpl; [done|].
  rewrite Hf by left. f_equal. apply IH. intros y Hy. apply Hf. by right.
Qed.

Lemma flat_map_fmap {A B C} (f : B → list C) (g : A → B) (l : list A) :
  flat_map f (g <$> l) = flat_map (λ x, f (g x)) l.
Proof. induction l as [|x l IH]; csimpl; [done|]. by rewrite IH. Qed.

(** The prediction read off a graph that has just learnt one transition
    from source keys it did not hold. *)
Lemma predict_learnt (g : ConceptGraph) (t t' : MemoryAtomType)
    (scs tcs : list string) (sourceAtom : MemoryAtom) (topK : Z) :
  type sourceAtom = t → concepts sourceAtom = Some scs →
  scs ≠ [] → NoDup scs → NoDup tcs → 0 ≤ topK →
  (∀ sc, sc ∈ scs → node_key t sc ∉ g.*1) →
  (slice
     (sort (λ a b, 0 <? b.2 - a.2)
        (foldl (λ m c, map_delete c m)
           (addTransitions []
              (edgesFrom (foldl (trainSource t t' tcs) g scs) [sourceAtom]))
           (elements (list_to_set (originalConceptsOf [sourceAtom])
                      : gset string))))
     0 (Some topK)).*1
  = take (Z.to_nat topK) (filter (λ c, c ∉ scs) tcs).
Proof.
  intros Ht Hcs Hne Hscs Htcs HK Hfresh.
  rewrite (trainSources_fresh t t' tcs Htcs g scs Hscs Hfresh).
  unfold edgesFrom, originalConceptsOf, sourceKeysOf, conceptsOf.
  simpl. rewrite Hcs, Ht, !app_nil_r. simpl.
  rewrite flat_map_fmap.
  rewrite (flat_map_constant _
             ((λ tc, (node_key t' tc, 1)) <$> tcs) scs).
  2:{ intros sc Hsc. simpl.
      rewrite map_get_app_fresh by by apply Hfresh.
      by rewrite (map_get_constant (node_key t) _ sc scs Hsc). }
  remember (elements (list_to_set scs : gset string)) as os eqn:Hos.
  assert (∀ c, c ∈ os ↔ c ∈ scs) as Hiff
    by (intros c; by rewrite Hos, elem_of_elements, elem_of_list_to_set).
  clear Hos Hfresh Hcs. destruct scs as [|sc scs']; [done|]. simpl.
  rewrite addTransitions_app, (addTransitions_first t' tcs Htcs).
  rewrite (addTransitions_repeated t' tcs Htcs scs' 1).
  rewrite delete_all_filter by
    (by rewrite <- list_fmap_compose, list_fmap_id).
  rewrite <- (filter_fmap
                (λ tc : string, (tc, 1 + Z.of_nat (length scs')))
                (λ e : string * Z, e.1 ∉ os)).
  simpl.
  rewrite (sort_constant snd (1 + Z.of_nat (length scs'))).
  2:{ by intros x (tc & -> & _)%list_elem_of_fmap. }
  rewrite slice_first, fmap_take by done.
  rewrite <- list_fmap_compose, list_fmap_id. f_equal.
  apply list_filter_iff. intros c. by rewrite Hiff.
Qed.

(** X5.  Learning then predicting.  Take a graph that holds none of the
    keys of a source atom whose [concepts] field is a non-empty list without
    repetition, and train it on the transition from that atom to a target
    whose concepts do not repeat.  Then [getFollowUpConcepts] on the source
    atom alone returns the target's concepts in the target's own order,
    without those that are concepts of the source, cut to the first
    [topK]: all of them carry the same weight, the number of source
    concepts, so the stable sort keeps the order of insertion. *)
Theorem learn_then_predict (extractConcepts : string → list string)
    (sourceAtom targetAtom : MemoryAtom) (scs : list string) (topK : Z)
    (s : SrgService) :
  concepts sourceAtom = Some scs → scs ≠ [] → NoDup scs →
  NoDup (conceptsOrExtract extractConcepts targetAtom) →
  (∀ sc, sc ∈ scs →
     node_key (type sourceAtom) sc ∉ (graph (ensureLoaded s)).*1) →
  0 ≤ topK →
  (getFollowUpConcepts [sourceAtom] topK
     (trainOnTransition extractConcepts sourceAtom targetAtom s)).1
  = take (Z.to_nat topK)
      (filter (λ c, c ∉ scs) (conceptsOrExtract extractConcepts targetAtom)).
Proof.
  intros Hcs Hne Hscs Htcs Hfresh HK.
  rewrite getFollowUpConcepts_stages, ensureLoaded_trainOnTransition.
  rewrite trainOnTransition_graph.
  assert (conceptsOrExtract extractConcepts sourceAtom = scs) as ->
    by (unfold conceptsOrExtract; by rewrite Hcs).
  destruct scs as [|sc scs']; [done|].
  destruct (conceptsOrExtract extractConcepts targetAtom) as [|tc tcs].
  - rewrite edgesFrom_nil.
    + change (addTransitions [] []) with ([] : JsMap Z).
      pose proof (delete_all_sublist []
                    (elements (list_to_set (originalConceptsOf [sourceAtom])
                               : gset string))) as ->%sublist_nil_r.
      rewrite slice_first by done. simpl. rewrite filter_nil.
      by rewrite !take_nil.
    + unfold sourceKeysOf, conceptsOf. simpl. rewrite Hcs, app_nil_r.
      cbn [default].
      intros k (c & -> & Hc)%list_elem_of_fmap.
      by rewrite map_get_fresh by by apply Hfresh.
  - by apply predict_learnt.
Qed.

Lemma learn_then_predict_witness :
  (getFollowUpConcepts [ltm_general] 5
     (trainOnTransition (λ _, []) ltm_general stm_query example_srg)).1
  = ["cat"; "tree"].
Proof.
  rewrite (learn_then_predict (λ _, []) ltm_general stm_query
             ["fish"; "bird"] 5 example_srg).
  - reflexivity.
  - reflexivity.
  - discriminate.
  - apply (bool_decide_unpack _). reflexivity.
  - apply (bool_decide_unpack _). reflexivity.
  - apply Forall_forall.
    constructor; [apply (bool_decide_unpack _); reflexivity|].
    constructor; [apply (bool_decide_unpack _); reflexivity|].
    constructor.
  - lia.
Defined.
(** ** useChat: decay and reactivation of the stored scores *)

Lemma applyActivationDecay_value currentTurn prev c :
  cache_ok c →
  messages (applyActivationDecay currentTurn prev c).1
  = decayedCopy currentTurn <$> messages prev
  ∧ cache_ok (applyActivationDecay currentTurn prev c).2.
Proof.
  intros Hc. unfold applyActivationDecay. simpl.
  exact (map_st_fmap (decayAtom currentTurn) (decayedCopy currentTurn)
           cache_ok (messages prev) c (decayAtom_value currentTurn) Hc).
Qed.

Lemma decay_spec_rest score t : t ≤ 0 → decay_spec score t = score.
Proof. intros Ht. unfold decay_spec. by rewrite decide_True. Qed.

(** X7.  [applyActivationDecay] replaces every message by a copy that
    differs in its score only, and leaves the rest of the session alone.
    The score of the copy is always defined.  A message activated at
    [currentTurn] or later keeps its score; an older one gets a score of at
    least 0.01; a score of at least 0.01 is never raised, and a score
    between 0.01 and 1 stays there. *)
Theorem applyActivationDecay_scores (currentTurn : Z) (prev : SessionState)
    (fibCache : gmap Z Z) :
  cache_ok fibCache →
  let next := (applyActivationDecay currentTurn prev fibCache).1 in
  let scoreOf (m : MemoryAtom) : Q := default 1%Q (activationScore m) in
  let lastOf (m : MemoryAtom) : Z := default 0 (lastActivatedTurn m) in
  length (messages next) = length (messages prev)
  ∧ projectFiles next = projectFiles prev
  ∧ contextFileNames next = contextFileNames prev
  ∧ selfNarrative next = selfNarrative prev
  ∧ cache_ok (applyActivationDecay currentTurn prev fibCache).2
  ∧ ∀ i m, messages prev !! i = Some m →
      ∃ m', messages next !! i = Some m'
        ∧ (∀ q, with_activationScore m' q = with_activationScore m q)
        ∧ activationScore m' = Some (decay_spec (scoreOf m) (currentTurn - lastOf m))
        ∧ (currentTurn ≤ lastOf m → scoreOf m' = scoreOf m)
        ∧ (lastOf m < currentTurn → (1 # 100 <= scoreOf m')%Q)
        ∧ ((1 # 100 <= scoreOf m)%Q → (scoreOf m' <= scoreOf m)%Q)
        ∧ ((1 # 100 <= scoreOf m)%Q ∧ (scoreOf m <= 1)%Q →
           (1 # 100 <= scoreOf m')%Q ∧ (scoreOf m' <= 1)%Q).
Proof.
  intros Hc next scoreOf lastOf.
  destruct (applyActivationDecay_value currentTurn prev fibCache Hc)
    as [Hms Hc'].
  fold next in Hms.
  split_and!; [by rewrite Hms, length_fmap|done..|].
  intros i m Hi. exists (decayedCopy currentTurn m).
  split; [by rewrite Hms, list_lookup_fmap, Hi|].
  split; [done|]. split; [done|].
  unfold scoreOf at 1 3 5 7. simpl.
  unfold decayedScoreOf, turnsOldOf. fold (scoreOf m) (lastOf m).
  split_and!.
  - intros Hle. by rewrite decay_spec_rest by lia.
  - intros Hlt. apply decay_spec_floor. lia.
  - apply decay_spec_le.
  - intros [Hlo Hhi].
    pose proof (decay_spec_le (scoreOf m) (currentTurn - lastOf m) Hlo) as Hle.
    change (scoreOf (decayedCopy currentTurn m))
      with (decay_spec (scoreOf m) (currentTurn - lastOf m)).
    split; [|by apply Qle_trans with (scoreOf m)].
    destruct (decide (currentTurn - lastOf m ≤ 0)) as [Hrest|Hold].
    + by rewrite decay_spec_rest.
    + apply decay_spec_floor. lia.
Qed.

Lemma applyActivationDecay_scores_witness :
  ∃ m', messages (applyActivationDecay 11 (mkSession example_log [] [] None) ∅).1
          !! 0%nat = Some m'
        ∧ activationScore m' = Some (2 # 3)%Q.
Proof.
  destruct (applyActivationDecay_scores 11 (mkSession example_log [] [] None) ∅
              cache_ok_empty) as (_ & _ & _ & _ & _ & H).
  destruct (H 0%nat ltm_general eq_refl) as (m' & Hm' & _ & Hs & _).
  exists m'. split; [exact Hm'|]. rewrite Hs. reflexivity.
Defined.

Lemma SessionState_eq (s s' : SessionState) :
  messages s = messages s' → projectFiles s = projectFiles s' →
  contextFileNames s = contextFileNames s' →
  selfNarrative s = selfNarrative s' → s = s'.
Proof. destruct s, s'. simpl. by intros -> -> -> ->. Qed.

Lemma reactivateAtoms_lookup uuids turn prev i m :
  messages prev !! i = Some m →
  messages (reactivateAtoms uuids turn prev) !! i
  = Some (if decide (uuid m ∈ uuids) then reactivated m turn else m).
Proof.
  intros Hi. unfold reactivateAtoms. simpl.
  rewrite list_lookup_fmap, Hi. simpl. f_equal.
  destruct (decide (uuid m ∈ uuids)) as [Hin|Hout].
  - by rewrite bool_decide_eq_true_2 by by apply elem_of_list_to_set.
  - by rewrite bool_decide_eq_false_2 by by rewrite elem_of_list_to_set.
Qed.

Lemma reactivateAtoms_ext uuids uuids' turn prev :
  (∀ u, u ∈ uuids ↔ u ∈ uuids') →
  reactivateAtoms uuids turn prev = reactivateAtoms uuids' turn prev.
Proof.
  intros Hiff. unfold reactivateAtoms.
  assert ((list_to_set uuids : gset string) = list_to_set uuids') as ->; [|done].
  apply set_eq. intros u. by rewrite !elem_of_list_to_set.
Qed.

Lemma reactivateAtoms_app u1 u2 turn prev :
  reactivateAtoms (u1 ++ u2) turn prev
  = reactivateAtoms u1 turn (reactivateAtoms u2 turn prev).
Proof.
  apply SessionState_eq; try done. simpl.
  rewrite <- list_fmap_compose. apply list_fmap_ext. intros _ m _. simpl.
  assert (∀ (us : list string) u,
            bool_decide (u ∈ (list_to_set us : gset string))
            = bool_decide (u ∈ us)) as Hset.
  { intros us u. apply bool_decide_ext, elem_of_list_to_set. }
  rewrite !Hset.
  rewrite (bool_decide_ext _ _ (elem_of_app u1 u2 (uuid m))).
  destruct (bool_decide_reflect (uuid m ∈ u2)) as [H2|H2]; simpl;
    destruct (bool_decide_reflect (uuid m ∈ u1)) as [H1|H1].
  - rewrite bool_decide_eq_true_2; [done|by left].
  - rewrite bool_decide_eq_true_2; [done|by right].
  - rewrite bool_decide_eq_true_2; [done|by left].
  - rewrite bool_decide_eq_false_2; [done|by intros [|]].
Qed.

(** X8.  [reactivateAtoms] gives every message whose uuid is listed the
    score 1 and the turn as [lastActivatedTurn], and leaves every other
    message, and the rest of the session, as it is.  Only the set of the
    listed uuids counts; listing more uuids in a second call amounts to
    one call with all of them; the call is idempotent.  A message
    reactivated at [turn] has at turn [turn'] the decayed score
    [decay 1 (turn' - turn)]: it is still 1 up to [turn] and 2/3 one turn
    later. *)
Theorem reactivateAtoms_messages (uuids : list string) (turn : Z)
    (prev : SessionState) :
  let next := reactivateAtoms uuids turn prev in
  uuid <$> messages next = uuid <$> messages prev
  ∧ projectFiles next = projectFiles prev
  ∧ contextFileNames next = contextFileNames prev
  ∧ selfNarrative next = selfNarrative prev
  ∧ (∀ i m, messages prev !! i = Some m →
       messages next !! i
       = Some (if decide (uuid m ∈ uuids) then reactivated m turn else m))
  ∧ reactivateAtoms uuids turn next = next
  ∧ reactivateAtoms [] turn prev = prev
  ∧ (∀ uuids', (∀ u, u ∈ uuids ↔ u ∈ uuids') →
       reactivateAtoms uuids' turn prev = next)
  ∧ (∀ uuids', reactivateAtoms uuids' turn next
               = reactivateAtoms (uuids' ++ uuids) turn prev)
  ∧ (∀ i m turn' fibCache,
       cache_ok fibCache → messages prev !! i = Some m → uuid m ∈ uuids →
       ∃ m', messages (applyActivationDecay turn' next fibCache).1 !! i
             = Some m'
         ∧ activationScore m' = Some (decay_spec 1 (turn' - turn))
         ∧ (turn' ≤ turn → activationScore m' = Some 1%Q)
         ∧ (turn' = turn + 1 → activationScore m' = Some (2 # 3)%Q)).
Proof.
  intros next. split_and!; try done.
  - unfold next, reactivateAtoms. simpl. rewrite <- list_fmap_compose.
    apply list_fmap_ext. intros _ m _. simpl. by case_bool_decide.
  - intros i m Hi. by apply reactivateAtoms_lookup.
  - unfold next. rewrite <- reactivateAtoms_app.
    apply reactivateAtoms_ext. intros u. rewrite elem_of_app. tauto.
  - apply SessionState_eq; try done. simpl.
    rewrite <- (list_fmap_id (messages prev)) at 2.
    apply list_fmap_ext. intros _ m _. simpl.
    by rewrite bool_decide_eq_false_2 by apply not_elem_of_empty.
  - intros uuids' Hiff. symmetry. by apply reactivateAtoms_ext.
  - intros uuids'. unfold next. by rewrite reactivateAtoms_app.
  - intros i m turn' c Hc Hi Hin.
    destruct (applyActivationDecay_value turn' next c Hc) as [-> _].
    exists (decayedCopy turn' (reactivated m turn)).
    split.
    { rewrite list_lookup_fmap. unfold next.
      rewrite (reactivateAtoms_lookup uuids turn prev i m Hi).
      by rewrite decide_True. }
    split; [done|]. simpl. unfold decayedScoreOf, turnsOldOf. simpl.
    split.
    + intros Hle. by rewrite decay_spec_rest by lia.
    + intros ->. by replace (turn + 1 - turn) with 1 by lia.
Qed.

(** ** useChat: [sendMessage], from the decay to the reactivation *)

Lemma all_Some {A} (l : list (option A)) :
  (∀ x, x ∈ l → ∃ a, x = Some a) → ∃ l', l = Some <$> l'.
Proof.
  induction l as [|x l IH]; intros Hl; [by exists []|].
  destruct (Hl x) as [a ->]; [left|].
  destruct IH as [l' ->]; [intros y Hy; apply Hl; by right|].
  by exists (a :: l').
Qed.

Lemma mapM_fmap_Some {A B} (f : A → B) (l : list A) :
  mapM (fmap f) (Some <$> l) = Some (f <$> l).
Proof.
  induction l as [|x l IH]; [done|].
  rewrite !fmap_cons. change (mapM (fmap f) (Some x :: (Some <$> l)))
    with (y ← Some (f x); k ← mapM (fmap f) (Some <$> l); Some (y :: k)).
  by rewrite IH.
Qed.

(** What [recall] returns lies in the log before the last 15 positions. *)
Lemma recall_returns_position memory currentTurn srg c a :
  Some a ∈ memories (recall memory currentTurn srg c).1.1
  ∨ Some a ∈ axioms (recall memory currentTurn srg c).1.1 →
  ∃ i, memory !! i = Some a ∧ (i + 15 < length memory)%nat.
Proof.
  intros (a' & [= <-] & [i Hi]%list_elem_of_lookup)%recall_returns_ltm.
  exists i. by apply ltmOf_lookup.
Qed.

(** X9.  [sendMessage] up to [reactivateAtoms], on a log with unique uuids.
    Reading the uuids of what [recall] returned never fails.  The state
    then holds, position by position, the reactivated atom (score 1,
    activated at the current turn) for every atom that was recalled and
    the decayed copy for every other one, followed by the new user atom as
    it was created; the files, the context names and the narrative are
    untouched.  The recalled atoms are none of the last 14 of the old log,
    so the working set of 15 that was the query is not reactivated. *)
Theorem sendMessage_reactivates (session : SessionState)
    (userAtom : MemoryAtom) (srg : SrgService)
    (hookCache recallCache : gmap Z Z) :
  cache_ok hookCache →
  NoDup (uuid <$> messages session ++ [userAtom]) →
  let currentTurn := currentTurnOf session in
  let r := (recall (messages session ++ [userAtom]) currentTurn srg
              recallCache).1.1 in
  let recalled (a : MemoryAtom) : Prop :=
    Some a ∈ memories r ∨ Some a ∈ axioms r in
  ∃ next srg' hookCache' recallCache',
    sendMessage_recall session userAtom srg hookCache recallCache
    = Some (r, next, srg', hookCache', recallCache')
    ∧ messages next
      = ((λ a, if decide (recalled a) then reactivated a currentTurn
               else decayedCopy currentTurn a) <$> messages session)
        ++ [userAtom]
    ∧ projectFiles next = projectFiles session
    ∧ contextFileNames next = contextFileNames session
    ∧ selfNarrative next = selfNarrative session
    ∧ ∀ a, recalled a →
        ∃ i, messages session !! i = Some a
          ∧ (i + 14 < length (messages session))%nat.
Proof.
  intros Hc Hnd currentTurn r recalled.
  set (allHistory := messages session ++ [userAtom]) in *.
  assert (∀ a, recalled a →
            ∃ i, messages session !! i = Some a
              ∧ (i + 14 < length (messages session))%nat) as Hpos.
  { intros a Ha.
    apply recall_returns_position in Ha as (i & Hi & Hlt).
    unfold allHistory in Hi, Hlt. rewrite length_app in Hlt. simpl in Hlt.
    exists i. split; [|lia]. rewrite lookup_app_l in Hi by lia. done. }
  destruct (all_Some (memories r)) as [ms Hms].
  { intros x Hx.
    destruct (recall_returns_ltm allHistory currentTurn srg recallCache x)
      as (a & -> & _); [by left|by exists a]. }
  destruct (all_Some (axioms r)) as [axs Haxs].
  { intros x Hx.
    destruct (recall_returns_ltm allHistory currentTurn srg recallCache x)
      as (a & -> & _); [by right|by exists a]. }
  assert (∀ u, u ∈ (uuid <$> ms) ++ (uuid <$> axs) ↔
               ∃ a, recalled a ∧ uuid a = u) as Huuids.
  { intros u. unfold recalled. rewrite Hms, Haxs, elem_of_app.
    rewrite !list_elem_of_fmap. split.
    - intros [(a & -> & Ha)|(a & -> & Ha)]; exists a;
        (split; [|done]); [left|right]; apply list_elem_of_fmap; by exists a.
    - intros (a & [(a' & [= <-] & Ha)%list_elem_of_fmap
                  |(a' & [= <-] & Ha)%list_elem_of_fmap] & <-);
        [left|right]; by exists a. }
  exists (reactivateAtoms ((uuid <$> ms) ++ (uuid <$> axs)) currentTurn
            (addAtom userAtom
               (applyActivationDecay currentTurn session hookCache).1)),
         (recall allHistory currentTurn srg recallCache).1.2,
         (applyActivationDecay currentTurn session hookCache).2,
         (recall allHistory currentTurn srg recallCache).2.
  split.
  { unfold sendMessage_recall. fold currentTurn allHistory r.
    unfold recalledUuids. by rewrite Hms, Haxs, !mapM_fmap_Some. }
  split_and!; [|done..|exact Hpos].
  unfold reactivateAtoms, addAtom. cbn [messages].
  destruct (applyActivationDecay_value currentTurn session hookCache Hc)
    as [-> _].
  rewrite fmap_app, <- list_fmap_compose. f_equal.
  - apply list_fmap_ext. intros i m Hi. simpl.
    destruct (decide (recalled m)) as [Hin|Hout].
    + rewrite bool_decide_eq_true_2; [done|].
      apply elem_of_list_to_set, Huuids. by exists m.
    + rewrite bool_decide_eq_false_2; [done|].
      rewrite elem_of_list_to_set, Huuids. intros (a & Ha & Hu).
      destruct (Hpos a Ha) as (j & Hj & _).
      assert (a = m) as ->; [|done].
      apply (uuid_inj_NoDup allHistory); [done| | |done];
        apply elem_of_app; left; by eapply list_elem_of_lookup_2.
  - simpl. rewrite bool_decide_eq_false_2; [done|].
    rewrite elem_of_list_to_set, Huuids. intros (a & Ha & Hu).
    destruct (Hpos a Ha) as (j & Hj & Hlt).
    assert (j = length (messages session)) as ->; [|lia].
    eapply NoDup_lookup; [exact Hnd|..].
    + unfold allHistory. rewrite list_lookup_fmap, lookup_app_l by lia.
      by rewrite Hj.
    + unfold allHistory. rewrite list_lookup_fmap, lookup_app_r by lia.
      rewrite Nat.sub_diag. simpl. by rewrite Hu.
Qed.

Lemma sendMessage_reactivates_witness :
  is_Some (sendMessage_recall (mkSession example_log [] [] None)
             (example_atom "u1" user_message ["cat"] 1 2) example_srg ∅ ∅).
Proof.
  destruct (sendMessage_reactivates (mkSession example_log [] [] None)
              (example_atom "u1" user_message ["cat"] 1 2) example_srg ∅ ∅
              cache_ok_empty)
    as (next & srg' & hookCache' & recallCache' & H & _).
  - apply (bool_decide_unpack _). vm_compute. reflexivity.
  - rewrite H. by eexists.
Defined.

(** ** useChat: [loadState] *)

Lemma hydrate_turn all index m :
  lastActivatedTurn (hydrate all index m)
  = Some (default
            (Z.of_nat (length (filter (λ msg, type msg = user_message)
                                 (take (S index) all))))
            (lastActivatedTurn m)).
Proof.
  unfold hydrate. simpl. rewrite slice_first by lia.
  by replace (Z.to_nat (Z.of_nat index + 1)) with (S index) by lia.
Qed.

Lemma hydrate_defined all index m :
  is_Some (activationScore m) → is_Some (lastActivatedTurn m) →
  hydrate all index m = m.
Proof. destruct m. simpl. by intros [q ->] [t ->]. Qed.

Lemma imap_hydrate_idemp (all : list MemoryAtom) :
  imap (hydrate (imap (hydrate all) all)) (imap (hydrate all) all)
  = imap (hydrate all) all.
Proof.
  apply list_eq. intros i. rewrite !list_lookup_imap.
  by destruct (all !! i) as [m|].
Qed.

Lemma user_messages_take_S (all : list MemoryAtom) i m :
  all !! i = Some m →
  length (filter (λ msg, type msg = user_message) (take (S i) all))
  = (length (filter (λ msg, type msg = user_message) (take i all))
     + if decide (type m = user_message) then 1 else 0)%nat.
Proof.
  intros Hi. rewrite (take_S_r _ _ _ Hi), filter_app, length_app.
  rewrite filter_cons, filter_nil. by case_decide.
Qed.

(** X10.  [loadState] refuses an object that lacks the messages, the files
    or the context names, and keeps the session.  Otherwise the new session
    has the stored files and names, a narrative that is defined, and the
    stored messages with their two activation fields defined: a stored
    value is kept, a missing score becomes 1, and a missing
    [lastActivatedTurn] becomes the number of user messages up to and
    including the message, which is at most its position plus 1, at least 1
    for a user message, and the turn [sendMessage] would give a user
    message arriving after the messages before it.  Nothing else of a
    message changes, and loading what was loaded changes nothing. *)
Theorem loadState_hydrates (state : StoredState) (session : SessionState) :
  let next := loadState state session in
  (stored_messages state = None ∨ stored_projectFiles state = None
   ∨ stored_contextFileNames state = None → next = session)
  ∧ ∀ ms files names,
      stored_messages state = Some ms →
      stored_projectFiles state = Some files →
      stored_contextFileNames state = Some names →
      projectFiles next = files
      ∧ contextFileNames next = names
      ∧ selfNarrative next = Some (default "" (stored_selfNarrative state))
      ∧ length (messages next) = length ms
      ∧ (∀ session', loadState (stored next) session' = next)
      ∧ ((∀ m, m ∈ ms → is_Some (activationScore m)
                         ∧ is_Some (lastActivatedTurn m)) →
         messages next = ms)
      ∧ ∀ i m, ms !! i = Some m →
          let turn :=
            Z.of_nat (length (filter (λ msg, type msg = user_message)
                                (take (S i) ms))) in
          ∃ m', messages next !! i = Some m'
            ∧ (∀ t, reactivated m' t = reactivated m t)
            ∧ activationScore m' = Some (default 1%Q (activationScore m))
            ∧ lastActivatedTurn m' = Some (default turn (lastActivatedTurn m))
            ∧ 0 ≤ turn ≤ Z.of_nat i + 1
            ∧ (type m = user_message →
               1 ≤ turn
               ∧ turn = currentTurnOf (mkSession (take i ms) files names None)).
Proof.
  intros next. split.
  { unfold next, loadState.
    intros Hnone.
    destruct (stored_messages state), (stored_projectFiles state),
      (stored_contextFileNames state); try done.
    by destruct Hnone as [?|[?|?]]. }
  intros ms files names Hms Hfiles Hnames.
  assert (next = {| messages := imap (hydrate ms) ms;
                    projectFiles := files;
                    contextFileNames := names;
                    selfNarrative :=
                      Some (default "" (stored_selfNarrative state)) |})
    as Hnext.
  { unfold next, loadState. by rewrite Hms, Hfiles, Hnames. }
  rewrite Hnext. simpl. split_and!; try done.
  - by rewrite length_imap.
  - intros session'. unfold loadState, stored. simpl.
    by rewrite imap_hydrate_idemp.
  - intros Hdef. apply list_eq. intros i. rewrite list_lookup_imap.
    destruct (ms !! i) as [m|] eqn:Hi; [|done]. simpl. f_equal.
    apply hydrate_defined; apply Hdef; by eapply list_elem_of_lookup_2.
  - intros i m Hi. exists (hydrate ms i m).
    split; [by rewrite list_lookup_imap, Hi|].
    split; [done|]. split; [done|].
    split; [apply hydrate_turn|].
    pose proof (length_filter (λ msg, type msg = user_message) (take i ms))
      as Hle.
    pose proof (length_take_le ms i) as Htake.
    pose proof (lookup_lt_Some _ _ _ Hi) as Hlt.
    rewrite (user_messages_take_S ms i m Hi).
    rewrite length_take in Hle.
    split; [case_decide; lia|].
    intros Hty. rewrite decide_True by done.
    unfold currentTurnOf. simpl. lia.
Qed.

(** ** useChat: the project files *)

Section js_map_build.
Context {V : Type}.
Implicit Types (m : JsMap V) (k : string) (v : V).

Lemma map_get_elem k v m : map_get k m = Some v → (k, v) ∈ m.
Proof.
  induction m as [|[k0 v0] m IH]; csimpl; [done|].
  case_decide as Hk; [intros [= ->]; subst; left|].
  intros Hget. right. by apply IH.
Qed.

Lemma map_get_keys k m : is_Some (map_get k m) ↔ k ∈ m.*1.
Proof.
  induction m as [|[k0 v0] m IH]; csimpl.
  - split; [by intros [? ?]|by intros ?%elem_of_nil].
  - rewrite elem_of_cons. case_decide as Hk.
    + split; [intros _; by left|by eexists].
    + rewrite IH. split; [by right|]. by intros [->|?].
Qed.

Lemma JsMap_ext m1 m2 :
  NoDup m1.*1 → m1.*1 = m2.*1 → (∀ k, map_get k m1 = map_get k m2) →
  m1 = m2.
Proof.
  revert m2. induction m1 as [|[k1 v1] m1 IH]; intros [|[k2 v2] m2]; csimpl;
    try done.
  intros [Hk Hnd]%NoDup_cons [= -> Hkeys] Hget.
  pose proof (Hget k2) as H2. rewrite !decide_True in H2 by done.
  injection H2 as ->. f_equal. apply IH; [done..|].
  intros k. specialize (Hget k).
  destruct (decide (k2 = k)) as [<-|Hne]; [|done].
  destruct (map_get k2 m1) as [v|] eqn:H1.
  { exfalso. apply Hk, map_get_keys. by eexists. }
  destruct (map_get k2 m2) as [v|] eqn:H2'; [|done].
  exfalso. apply Hk. rewrite Hkeys. apply map_get_keys. by eexists.
Qed.

Lemma map_set_all_app m es1 es2 :
  map_set_all m (es1 ++ es2) = map_set_all (map_set_all m es1) es2.
Proof. apply foldl_app. Qed.

Lemma map_set_all_keys m (es : list (string * V)) :
  (map_set_all m es).*1
  = m.*1 ++ filter (λ k, k ∉ m.*1) (first_occurrences es.*1).
Proof.
  unfold map_set_all. revert m.
  induction es as [|[k v] es IH]; intros m; csimpl.
  - by rewrite filter_nil, app_nil_r.
  - rewrite IH, map_set_keys, filter_cons.
    destruct (decide (k ∈ m.*1)) as [Hin|Hin].
    + rewrite decide_False by (by intros ?). f_equal.
      rewrite list_filter_filter. apply list_filter_iff.
      intros x. split; [|tauto]. intros Hx. split; [done|]. by intros ->.
    + rewrite decide_True by done. rewrite <- app_assoc. simpl. do 2 f_equal.
      rewrite list_filter_filter. apply list_filter_iff.
      intros x. rewrite not_elem_of_app, list_elem_of_singleton. tauto.
Qed.

Lemma map_set_all_get k m (es : list (string * V)) :
  map_get k (map_set_all m es)
  = match last (filter (λ e, e.1 = k) es) with
    | Some e => Some e.2
    | None => map_get k m
    end.
Proof.
  unfold map_set_all. revert m.
  induction es as [|[k0 v0] es IH]; intros m; csimpl; [done|].
  rewrite IH, filter_cons. simpl.
  destruct (decide (k0 = k)) as [->|Hne].
  - rewrite last_cons.
    destruct (last (filter _ es)); [done|]. by rewrite map_get_set_eq.
  - destruct (last (filter _ es)); [done|]. by rewrite map_get_set_ne.
Qed.

Lemma map_set_all_fresh m (es : list (string * V)) :
  NoDup (m.*1 ++ es.*1) → map_set_all m es = m ++ es.
Proof.
  unfold map_set_all. revert m.
  induction es as [|[k v] es IH]; intros m Hnd; csimpl.
  - by rewrite app_nil_r.
  - assert (k ∉ m.*1) as Hk.
    { apply NoDup_app in Hnd as (_ & Hdisj & _).
      intros Hin. apply (Hdisj k Hin). left. }
    rewrite (map_set_fresh _ _ _ Hk), IH; [by rewrite <- app_assoc|].
    rewrite fmap_app, <- app_assoc. done.
Qed.

Lemma map_set_filter (names : list string) k v m :
  k ∈ names →
  filter (λ e, e.1 ∉ names) (map_set k v m) = filter (λ e, e.1 ∉ names) m.
Proof.
  intros Hk. induction m as [|[k0 v0] m IH]; csimpl.
  - rewrite filter_cons, decide_False; [done|]. simpl. by intros ?.
  - destruct (decide (k0 = k)) as [->|Hne].
    + rewrite !filter_cons, !decide_False; [done|simpl; by intros ?..].
    + rewrite !filter_cons, IH. done.
Qed.

Lemma map_set_all_filter (names : list string) m (es : list (string * V)) :
  (∀ e, e ∈ es → e.1 ∈ names) →
  filter (λ e, e.1 ∉ names) (map_set_all m es)
  = filter (λ e, e.1 ∉ names) m.
Proof.
  unfold map_set_all. revert m.
  induction es as [|e es IH]; intros m Hes; simpl; [done|].
  rewrite IH by (intros e' He'; apply Hes; by right).
  apply map_set_filter. apply Hes. left.
Qed.
End js_map_build.

Lemma new_Set_first_occurrences (s l : list string) :
  foldl (λ s x, set_add x s) s l
  = s ++ filter (λ x, x ∉ s) (first_occurrences l).
Proof.
  revert s. induction l as [|x l IH]; intros s; simpl.
  - by rewrite filter_nil, app_nil_r.
  - rewrite IH, filter_cons. unfold set_add.
    destruct (bool_decide_reflect (x ∈ s)) as [Hin|Hin].
    + rewrite decide_False by (by intros ?). f_equal.
      rewrite list_filter_filter. apply list_filter_iff.
      intros y. split; [|tauto]. intros Hy. split; [done|]. by intros ->.
    + rewrite decide_True by done. rewrite <- app_assoc. simpl. do 2 f_equal.
      rewrite list_filter_filter. apply list_filter_iff.
      intros y. rewrite not_elem_of_app, list_elem_of_singleton. tauto.
Qed.

Lemma new_Set_value (l : list string) : new_Set l = first_occurrences l.
Proof.
  unfold new_Set. rewrite new_Set_first_occurrences. simpl.
  apply filter_true. intros x _. apply not_elem_of_nil.
Qed.

Lemma first_occurrences_id (l : list string) :
  NoDup l → first_occurrences l = l.
Proof.
  induction 1 as [|x l Hx _ IH]; simpl; [done|].
  rewrite IH. f_equal. apply filter_true. by intros y Hy ->.
Qed.

Lemma first_occurrences_app_absorb (l1 l2 : list string) :
  (∀ x, x ∈ l2 → x ∈ l1) →
  first_occurrences (first_occurrences l1 ++ l2) = first_occurrences l1.
Proof.
  intros Hsub.
  rewrite <- new_Set_value. unfold new_Set.
  rewrite foldl_app. fold (new_Set (first_occurrences l1)).
  rewrite new_Set_value, first_occurrences_id by apply first_occurrences_NoDup.
  rewrite new_Set_first_occurrences, filter_none, app_nil_r; [done|].
  intros x Hx Hout. apply Hout.
  apply first_occurrences_elem, Hsub.
  exact (proj1 (first_occurrences_elem x l2) Hx).
Qed.

(** The entries [[f.name, f]] of a list of files. *)
Lemma entries_keys (l : list ProjectFile) :
  ((λ f, (name f, f)) <$> l).*1 = name <$> l.
Proof. rewrite <- list_fmap_compose. done. Qed.

Lemma entries_values (l : list ProjectFile) :
  ((λ f, (name f, f)) <$> l).*2 = l.
Proof. rewrite <- list_fmap_compose. apply list_fmap_id. Qed.

Lemma entries_last (n : string) (l : list ProjectFile) :
  last (filter (λ e, e.1 = n) ((λ f, (name f, f)) <$> l))
  = (λ f, (name f, f)) <$> last (filter (λ f, name f = n) l).
Proof.
  rewrite <- (filter_fmap (λ f, (name f, f)) (λ e : string * ProjectFile, e.1 = n)).
  apply fmap_last.
Qed.

Lemma addFiles_map files prev :
  foldl (λ m newFile, map_set (name newFile) newFile m)
    (new_Map ((λ f, (name f, f)) <$> projectFiles prev)) files
  = new_Map ((λ f, (name f, f)) <$> (projectFiles prev ++ files)).
Proof.
  unfold new_Map. rewrite fmap_app, map_set_all_app.
  generalize (map_set_all [] ((λ f, (name f, f)) <$> projectFiles prev)).
  intros m. unfold map_set_all. revert m.
  induction files as [|f files IH]; intros m; csimpl; [done|]. apply IH.
Qed.

Lemma new_Map_get (n : string) (l : list ProjectFile) :
  map_get n (new_Map ((λ f, (name f, f)) <$> l))
  = last (filter (λ f, name f = n) l).
Proof.
  unfold new_Map. rewrite map_set_all_get, entries_last.
  by destruct (last (filter _ l)).
Qed.

Lemma new_Map_keys (l : list ProjectFile) :
  (new_Map ((λ f, (name f, f)) <$> l)).*1 = first_occurrences (name <$> l).
Proof.
  unfold new_Map. rewrite map_set_all_keys, entries_keys. simpl.
  apply filter_true. intros x _. apply not_elem_of_nil.
Qed.

Lemma new_Map_elem (l : list ProjectFile) k f :
  (k, f) ∈ new_Map ((λ f, (name f, f)) <$> l) ↔
  k = name f ∧ last (filter (λ g, name g = name f) l) = Some f.
Proof.
  assert (NoDup (new_Map ((λ f, (name f, f)) <$> l)).*1) as Hnd
    by (rewrite new_Map_keys; apply first_occurrences_NoDup).
  split.
  - intros Hin. pose proof (map_get_NoDup _ _ _ Hnd Hin) as Hget.
    rewrite new_Map_get in Hget.
    assert (k = name f) as ->; [|done].
    apply last_Some_elem_of, list_elem_of_filter in Hget. by destruct Hget.
  - intros [-> Hlast]. apply map_get_elem. by rewrite new_Map_get.
Qed.

Lemma new_Map_entries (l : list ProjectFile) :
  (λ f, (name f, f)) <$> (new_Map ((λ f, (name f, f)) <$> l)).*2
  = new_Map ((λ f, (name f, f)) <$> l).
Proof.
  rewrite <- list_fmap_compose.
  rewrite <- (list_fmap_id (new_Map _)) at 2.
  apply list_fmap_ext. intros i [k f] Hi. simpl.
  apply list_elem_of_lookup_2, new_Map_elem in Hi as [-> _]. done.
Qed.

(** X11.  [addFiles] keeps one file for each name: the names of the new
    project files are the names of the old files and of the added ones in
    the order of their first occurrence, and the file kept under a name is
    the last one of that name, an added file replacing an old one at the
    old one's position.  The names of the added files join the context
    names, each once, after the old ones.  The messages and the narrative
    are untouched, and adding the same files again changes nothing. *)
Theorem addFiles_files (files : list ProjectFile) (prev : SessionState) :
  let next := addFiles files prev in
  let all := projectFiles prev ++ files in
  messages next = messages prev
  ∧ selfNarrative next = selfNarrative prev
  ∧ name <$> projectFiles next = first_occurrences (name <$> all)
  ∧ NoDup (name <$> projectFiles next)
  ∧ (∀ f, f ∈ projectFiles next ↔
          last (filter (λ g, name g = name f) all) = Some f)
  ∧ contextFileNames next
    = first_occurrences (contextFileNames prev ++ (name <$> files))
  ∧ (∀ f, f ∈ files → isFileInContext (name f) next = true)
  ∧ addFiles files next = next.
Proof.
  intros next all.
  assert (projectFiles next
          = (new_Map ((λ f, (name f, f)) <$> all)).*2) as Hfiles.
  { unfold next, addFiles. simpl. by rewrite addFiles_map. }
  assert (contextFileNames next
          = first_occurrences (contextFileNames prev ++ (name <$> files)))
    as Hctx.
  { unfold next, addFiles. simpl. apply new_Set_value. }
  assert (name <$> projectFiles next = first_occurrences (name <$> all))
    as Hnames.
  { rewrite Hfiles, <- new_Map_keys, <- (entries_keys (new_Map _).*2).
    by rewrite new_Map_entries. }
  split_and!; try done.
  - rewrite Hnames. apply first_occurrences_NoDup.
  - intros f. rewrite Hfiles, list_elem_of_fmap. split.
    + intros ([k f'] & -> & Hin). simpl.
      by apply new_Map_elem in Hin as [_ Hlast].
    + intros Hlast. exists (name f, f). split; [done|].
      by apply new_Map_elem.
  - intros f Hf. unfold isFileInContext. apply bool_decide_eq_true.
    rewrite Hctx. apply first_occurrences_elem, elem_of_app. right.
    apply list_elem_of_fmap. by exists f.
  - apply SessionState_eq; try done.
    + change (projectFiles (addFiles files next))
        with (foldl (λ m newFile, map_set (name newFile) newFile m)
                (new_Map ((λ f, (name f, f)) <$> projectFiles next))
                files).*2.
      rewrite addFiles_map, Hfiles. f_equal.
      unfold new_Map at 1. rewrite fmap_app, map_set_all_app.
      fold (new_Map ((λ f, (name f, f))
                       <$> (new_Map ((λ f, (name f, f)) <$> all)).*2)).
      rewrite new_Map_entries.
      assert (NoDup (new_Map ((λ f, (name f, f)) <$> all)).*1) as Hnd
        by (rewrite new_Map_keys; apply first_occurrences_NoDup).
      assert (new_Map (new_Map ((λ f, (name f, f)) <$> all))
              = new_Map ((λ f, (name f, f)) <$> all)) as ->.
      { unfold new_Map at 1. apply map_set_all_fresh. by simpl. }
      symmetry. apply JsMap_ext; [done|..].
      * rewrite map_set_all_keys, filter_none, app_nil_r; [done|].
        intros k Hk Hout. apply Hout.
        rewrite new_Map_keys. apply first_occurrences_elem.
        rewrite entries_keys in Hk.
        apply (proj1 (first_occurrences_elem _ _)) in Hk.
        unfold all. rewrite fmap_app, elem_of_app. by right.
      * intros k. rewrite map_set_all_get, entries_last, new_Map_get.
        unfold all. rewrite filter_app, last_app.
        by destruct (last (filter _ files)).
    + change (contextFileNames (addFiles files next))
        with (new_Set (contextFileNames next ++ (name <$> files))).
      rewrite new_Set_value, Hctx. apply first_occurrences_app_absorb.
      intros x Hx. apply elem_of_app. by right.
Qed.

Lemma entries_filter (names : list string) (l : list ProjectFile) :
  (λ f, (name f, f)) <$> filter (λ f, name f ∉ names) l
  = filter (λ e, e.1 ∉ names) ((λ f, (name f, f)) <$> l).
Proof.
  induction l as [|f l IH]; csimpl; [done|].
  rewrite !filter_cons. simpl. case_decide; csimpl; by rewrite IH.
Qed.

Lemma deleteFiles_value filesToDelete prev :
  deleteFiles filesToDelete prev
  = {| messages := messages prev;
       projectFiles :=
         filter (λ f, name f ∉ name <$> filesToDelete) (projectFiles prev);
       contextFileNames :=
         filter (λ n, n ∉ name <$> filesToDelete) (contextFileNames prev);
       selfNarrative := selfNarrative prev |}.
Proof.
  unfold deleteFiles. f_equal; apply list_filter_iff; intros x;
    by rewrite elem_of_list_to_set.
Qed.

Lemma filter_idemp {A} (P : A → Prop) `{!∀ x, Decision (P x)} (l : list A) :
  filter P (filter P l) = filter P l.
Proof. apply filter_true. by intros x [? _]%list_elem_of_filter. Qed.

(** X12.  [deleteFiles] removes, by name alone, every project file and
    every context name that bears the name of a file to delete, and keeps
    the others in their order; the messages and the narrative are
    untouched, and deleting again changes nothing.  On a session whose
    file names and context names do not repeat, adding files and then
    deleting them amounts to deleting them, and gives the session back
    when it held none of their names. *)
Theorem deleteFiles_files (filesToDelete : list ProjectFile)
    (prev : SessionState) :
  let next := deleteFiles filesToDelete prev in
  let names := name <$> filesToDelete in
  messages next = messages prev
  ∧ selfNarrative next = selfNarrative prev
  ∧ (∀ f, f ∈ projectFiles next ↔ f ∈ projectFiles prev ∧ name f ∉ names)
  ∧ projectFiles next `sublist_of` projectFiles prev
  ∧ (∀ n, n ∈ contextFileNames next ↔ n ∈ contextFileNames prev ∧ n ∉ names)
  ∧ contextFileNames next `sublist_of` contextFileNames prev
  ∧ deleteFiles filesToDelete next = next
  ∧ (NoDup (name <$> projectFiles prev) → NoDup (contextFileNames prev) →
     deleteFiles filesToDelete (addFiles filesToDelete prev) = next
     ∧ ((∀ f, f ∈ projectFiles prev → name f ∉ names) →
        (∀ n, n ∈ contextFileNames prev → n ∉ names) →
        deleteFiles filesToDelete (addFiles filesToDelete prev) = prev)).
Proof.
  intros next names. unfold next. rewrite deleteFiles_value. simpl.
  fold names. split_and!; try done.
  - intros f. rewrite list_elem_of_filter. tauto.
  - apply sublist_filter.
  - intros n. rewrite list_elem_of_filter. tauto.
  - apply sublist_filter.
  - rewrite deleteFiles_value. simpl. fold names.
    by rewrite !filter_idemp.
  - intros Hfiles Hctx.
    assert (deleteFiles filesToDelete (addFiles filesToDelete prev)
            = {| messages := messages prev;
                 projectFiles :=
                   filter (λ f, name f ∉ names) (projectFiles prev);
                 contextFileNames :=
                   filter (λ n, n ∉ names) (contextFileNames prev);
                 selfNarrative := selfNarrative prev |}) as Hround.
    { rewrite deleteFiles_value. fold names. apply SessionState_eq; try done.
      - cbn [projectFiles]. unfold addFiles. cbn [projectFiles].
        rewrite addFiles_map.
        set (M := new_Map ((λ f, (name f, f))
                             <$> (projectFiles prev ++ filesToDelete))).
        rewrite <- (entries_values (filter _ M.*2)).
        rewrite <- (entries_values (filter _ (projectFiles prev))).
        f_equal.
        rewrite !entries_filter.
        unfold M. rewrite new_Map_entries.
        unfold new_Map. rewrite fmap_app, map_set_all_app.
        rewrite (map_set_all_fresh []) by (simpl; by rewrite entries_keys).
        simpl. apply map_set_all_filter.
        intros e (f & -> & Hf)%list_elem_of_fmap. simpl.
        apply list_elem_of_fmap. by exists f.
      - cbn [contextFileNames]. unfold addFiles. cbn [contextFileNames].
        unfold new_Set. rewrite foldl_app.
        fold (new_Set (contextFileNames prev)).
        rewrite new_Set_value, first_occurrences_id by done.
        rewrite new_Set_first_occurrences, filter_app.
        rewrite (filter_none _ (filter _ (first_occurrences names)));
          [by rewrite app_nil_r|].
        intros n [_ Hn]%list_elem_of_filter Hout. apply Hout.
        exact (proj1 (first_occurrences_elem n names) Hn). }
    split; [done|].
    intros Hnofile Hnoctx. rewrite Hround.
    apply SessionState_eq; try done; simpl; by apply filter_true.
Qed.

Lemma deleteFiles_files_witness :
  deleteFiles [mkFile "a.ts" "new" "ts"]
    (addFiles [mkFile "a.ts" "new" "ts"]
       (mkSession [] [mkFile "b.ts" "old" "ts"] ["b.ts"] None))
  = mkSession [] [mkFile "b.ts" "old" "ts"] ["b.ts"] None.
Proof.
  destruct (deleteFiles_files [mkFile "a.ts" "new" "ts"]
              (mkSession [] [mkFile "b.ts" "old" "ts"] ["b.ts"] None))
    as (_ & _ & _ & _ & _ & _ & _ & H).
  destruct H as [_ H].
  - apply (bool_decide_unpack _). reflexivity.
  - apply (bool_decide_unpack _). reflexivity.
  - apply H.
    + apply Forall_forall. constructor; [|constructor].
      apply (bool_decide_unpack _). reflexivity.
    + apply Forall_forall. constructor; [|constructor].
      apply (bool_decide_unpack _). reflexivity.
Defined.

(** ** useChat: toggles *)

(** X13.  [toggleProjectFileContext] flips whether the file name is among
    the context names and touches no other name and nothing else of the
    session.  Toggling a name that is absent and toggling again gives the
    session back; toggling twice a name that is present, in a list without
    repeats, gives the same names with that name moved to the end. *)
Theorem toggleProjectFileContext_flips (fileName : string)
    (prev : SessionState) :
  let next := toggleProjectFileContext fileName prev in
  messages next = messages prev
  ∧ projectFiles next = projectFiles prev
  ∧ selfNarrative next = selfNarrative prev
  ∧ isFileInContext fileName next = negb (isFileInContext fileName prev)
  ∧ (∀ other, other ≠ fileName →
       isFileInContext other next = isFileInContext other prev)
  ∧ (NoDup (contextFileNames prev) → NoDup (contextFileNames next))
  ∧ (isFileInContext fileName prev = false →
     toggleProjectFileContext fileName next = prev)
  ∧ (isFileInContext fileName prev = true →
     NoDup (contextFileNames prev) →
     contextFileNames (toggleProjectFileContext fileName next)
     = filter (λ n, n ≠ fileName) (contextFileNames prev) ++ [fileName]
     ∧ contextFileNames (toggleProjectFileContext fileName next)
       ≡ₚ contextFileNames prev).
Proof.
  intros next. unfold next, toggleProjectFileContext, isFileInContext. simpl.
  destruct (bool_decide_reflect (fileName ∈ contextFileNames prev))
    as [Hin|Hout]; simpl.
  - assert (fileName ∉ filter (λ n, n ≠ fileName) (contextFileNames prev))
      as Hgone by (rewrite list_elem_of_filter; by intros [? _]).
    split_and!; try done.
    + by apply bool_decide_eq_false.
    + intros other Hne. apply bool_decide_ext.
      rewrite list_elem_of_filter. tauto.
    + by apply NoDup_filter.
    + intros _ Hnd. rewrite bool_decide_eq_false_2 by done. split; [done|].
      rewrite <- (filter_app_complement (λ n, n ≠ fileName)
                    (contextFileNames prev)) at 2.
      apply Permutation_app_head.
      assert (∀ l : list string, NoDup l → fileName ∈ l →
                [fileName] = filter (λ n, ¬ n ≠ fileName) l) as Hone.
      { clear. induction 1 as [|x l Hx Hnd IH]; [by intros ?%elem_of_nil|].
        rewrite filter_cons. intros [<-|Hin]%elem_of_cons.
        - rewrite decide_True by (by intros ?). f_equal. symmetry.
          apply filter_none. intros y Hy Hny. apply Hny. by intros ->.
        - rewrite decide_False; [by apply IH|].
          intros Hnn. apply Hnn. by intros ->. }
      by rewrite <- Hone.
  - split_and!; try done.
    + apply bool_decide_eq_true, elem_of_app. right. left.
    + intros other Hne. apply bool_decide_ext.
      rewrite elem_of_app, list_elem_of_singleton. split; [|by left].
      by intros [?|?].
    + intros Hnd. apply NoDup_app. split_and!; [done| |apply NoDup_singleton].
      by intros x Hx ->%list_elem_of_singleton.
    + intros _. rewrite bool_decide_eq_true_2
        by (apply elem_of_app; right; left).
      apply SessionState_eq; try done. simpl.
      rewrite filter_app, filter_cons, filter_nil.
      rewrite decide_False by (by intros ?). rewrite app_nil_r.
      apply filter_true. by intros x Hx ->.
Qed.

Lemma toggleProjectFileContext_flips_witness :
  contextFileNames
    (toggleProjectFileContext "a.ts"
       (toggleProjectFileContext "a.ts"
          (mkSession [] [] ["a.ts"; "b.ts"] None)))
  = ["b.ts"; "a.ts"].
Proof.
  destruct (toggleProjectFileContext_flips "a.ts"
              (mkSession [] [] ["a.ts"; "b.ts"] None))
    as (_ & _ & _ & _ & _ & _ & _ & H).
  destruct H as [H _]; [reflexivity| |by rewrite H].
  apply (bool_decide_unpack _). reflexivity.
Defined.



